(** * NavigationStack: the navigation history of nuclide-navigation-stack

    A shallow embedding of [pkg/nuclide-navigation-stack/lib/NavigationStack.js].

    The JavaScript class keeps an array of references to location objects,
    a cursor into that array and an rxjs [Subject] on which it publishes
    itself after structural changes.  Location objects are shared with the
    callers (the object handed to [push] is the object stored in the array)
    and [attemptUpdate] mutates one of them in place, so the embedding keeps
    an explicit object store and the array holds references into it.

    An operation returns [None] where the JavaScript throws: a failed
    [invariant(...)], or a property read on something that is not an object
    (a reference outside the store). *)

From Stdlib Require Import ZArith Lia.
From stdpp Require Import base option list strings.

(** ** Data model *)

(** An [atom$TextEditor] is only ever compared by identity ([===]) and asked
    for its path, so a handle is its identity. *)
Abbreviation TextEditor := nat (only parsing).

(** [atom$Point]: row and column.  The stack stores and copies it. *)
Abbreviation Point := (nat * nat)%type (only parsing).

Abbreviation NuclideUri := string (only parsing).

(** [Location = EditorLocation | UriLocation], discriminated by the [type]
    field (['editor'] or ['uri']). *)
Inductive Location :=
| EditorLocation (editor : TextEditor) (bufferPosition : Point)
| UriLocation (uri : NuclideUri) (bufferPosition : Point).

#[global] Instance Location_eq_dec : EqDecision Location.
Proof. solve_decision. Defined.

(** [location.bufferPosition] *)
Definition bufferPosition (location : Location) : Point :=
  match location with
  | EditorLocation _ p => p
  | UriLocation _ p => p
  end.

(** [location.bufferPosition = p] *)
Definition set_bufferPosition (p : Point) (location : Location) : Location :=
  match location with
  | EditorLocation e _ => EditorLocation e p
  | UriLocation u _ => UriLocation u p
  end.

(** [location.editor]: [None] stands for [undefined], the field being absent
    on a uri location. *)
Definition editor_field (location : Location) : option TextEditor :=
  match location with
  | EditorLocation e _ => Some e
  | UriLocation _ _ => None
  end.

(** References to location objects, and the store they point into.  A new
    object literal is allocated at the end of the store. *)
Abbreviation Ref := nat (only parsing).
Abbreviation Store := (list Location) (only parsing).

Definition alloc (location : Location) (h : Store) : Ref * Store :=
  (length h, h ++ [location]).

(** The fields of the class.  [_changes] counts the values published on the
    subject so far. *)
Record NavigationStack := {
  _elements : list Ref;
  _index : Z;
  _changes : nat;
}.

(** The stack together with the objects its entries refer to. *)
Record World := {
  store : Store;
  nav : NavigationStack;
}.

Definition MAX_STACK_DEPTH : nat := 100.

(** ** Queries and store-free operations *)

Definition constructor : NavigationStack :=
  {| _elements := []; _index := -1; _changes := 0 |}.

Definition _hasChanged (s : NavigationStack) : NavigationStack :=
  {| _elements := _elements s; _index := _index s; _changes := S (_changes s) |}.

Definition isEmpty (s : NavigationStack) : bool :=
  Nat.eqb (length (_elements s)) 0.

Definition hasCurrent (s : NavigationStack) : bool :=
  negb (isEmpty s).

(** [invariant(this._index >= 0 && this._index < this._elements.length)] *)
Definition getCurrent (s : NavigationStack) : option Ref :=
  if ((0 <=? _index s) && (_index s <? Z.of_nat (length (_elements s))))%Z
  then _elements s !! Z.to_nat (_index s)
  else None.

Definition getLocations (s : NavigationStack) : list Ref := _elements s.

Definition getIndex (s : NavigationStack) : Z := _index s.

(** [Array.prototype.splice(start)] with a single argument keeps the first
    [actualStart] elements, where a negative [start] counts from the end. *)
Definition splice_start (start : Z) (len : nat) : nat :=
  Z.to_nat (if (start <? 0)%Z
            then Z.max (Z.of_nat len + start) 0
            else Z.min start (Z.of_nat len)).

Definition push (newTop : Ref) (s : NavigationStack) : option NavigationStack :=
  let spliced :=
    take (splice_start (_index s + 1) (length (_elements s))) (_elements s) in
  let pushed := spliced ++ [newTop] in
  let elements :=
    if (MAX_STACK_DEPTH <? length pushed)%nat then drop 1 pushed else pushed in
  if (length elements <=? MAX_STACK_DEPTH)%nat
  then Some (_hasChanged {| _elements := elements;
                            _index := Z.of_nat (length elements) - 1;
                            _changes := _changes s |})
  else None.

Definition hasNext (s : NavigationStack) : bool :=
  (_index s + 1 <? Z.of_nat (length (_elements s)))%Z.

Definition hasPrevious (s : NavigationStack) : bool :=
  (0 <? _index s)%Z.

Definition set_index (i : Z) (s : NavigationStack) : NavigationStack :=
  {| _elements := _elements s; _index := i; _changes := _changes s |}.

(** The result is [Some r] for a location and [None] for [null]. *)
Definition previous (s : NavigationStack)
  : option (option Ref * NavigationStack) :=
  if hasPrevious s then
    let s1 := set_index (_index s - 1) s in
    result ← getCurrent s1;
    Some (Some result, _hasChanged s1)
  else Some (None, s).

Definition next (s : NavigationStack)
  : option (option Ref * NavigationStack) :=
  if negb (hasNext s) then Some (None, s)
  else
    let s1 := set_index (_index s + 1) s in
    result ← getCurrent s1;
    Some (Some result, _hasChanged s1).

(** ** Operations that read or write location objects *)

(** The result is [Some e] for an editor and [None] for [null]. *)
Definition getCurrentEditor (h : Store) (s : NavigationStack)
  : option (option TextEditor) :=
  if negb (hasCurrent s) then Some None
  else
    location ← getCurrent s;
    obj ← h !! location;
    Some (match obj with
          | EditorLocation editor _ => Some editor
          | UriLocation _ _ => None
          end).

(** [this.getCurrentEditor() === newTop.editor]: the left side is an editor
    or [null], the right side an editor or [undefined]; [null] and
    [undefined] are not strictly equal. *)
Definition same_editor (current : option TextEditor)
    (field : option TextEditor) : bool :=
  match current, field with
  | Some e1, Some e2 => Nat.eqb e1 e2
  | _, _ => false
  end.

Definition attemptUpdate (newTop : Ref) (w : World) : option World :=
  currentEditor ← getCurrentEditor (store w) (nav w);
  newTopObj ← store w !! newTop;
  if same_editor currentEditor (editor_field newTopObj) then
    current ← getCurrent (nav w);
    currentObj ← store w !! current;
    Some {| store := <[current :=
                         set_bufferPosition (bufferPosition newTopObj) currentObj]>
                       (store w);
            nav := nav w |}
  else
    s ← push newTop (nav w);
    Some {| store := store w; nav := s |}.

(** [this._elements.forEach((location, index) => { if (...) {
    this._elements[index] = {...}; } })]: [convert location] is [Some fresh]
    when the test holds, [fresh] being the new object literal. *)
Fixpoint forEach_replace (convert : Location → option Location)
    (h : Store) (elements : list Ref) : option (Store * list Ref) :=
  match elements with
  | [] => Some (h, [])
  | r :: rest =>
      location ← h !! r;
      match convert location with
      | Some fresh =>
          let '(r', h1) := alloc fresh h in
          '(h2, rest') ← forEach_replace convert h1 rest;
          Some (h2, r' :: rest')
      | None =>
          '(h2, rest') ← forEach_replace convert h rest;
          Some (h2, r :: rest')
      end
  end.

(** [this._elements.filter((location, index) => {...})] inside [filter]:
    [cursor] is [this._index], [index] the position of the head of
    [elements] in the original array, [newIndex] the running adjusted
    cursor. *)
Fixpoint filter_scan (predicate : Location → bool) (h : Store) (cursor : Z)
    (index : Z) (elements : list Ref) (newIndex : Z) : option (list Ref * Z) :=
  match elements with
  | [] => Some ([], newIndex)
  | r :: rest =>
      location ← h !! r;
      let result := predicate location in
      let newIndex1 :=
        if negb result && (index <=? cursor)%Z then (newIndex - 1)%Z
        else newIndex in
      '(kept, newIndex2) ←
        filter_scan predicate h cursor (index + 1) rest newIndex1;
      Some (if result then r :: kept else kept, newIndex2)
  end.

Definition filter (predicate : Location → bool) (h : Store)
    (s : NavigationStack) : option NavigationStack :=
  let originalSize := length (_elements s) in
  '(elements, newIndex) ←
    filter_scan predicate h (_index s) 0 (_elements s) (_index s);
  let s1 := {| _elements := elements;
               _index := Z.min (Z.max newIndex 0)
                               (Z.of_nat (length elements) - 1);
               _changes := _changes s |} in
  Some (if negb (Nat.eqb originalSize (length elements))
        then _hasChanged s1 else s1).

Section Editors.

(** [editor.getPath()]: [None] stands for [null] or [undefined]. *)
Variable getPath : TextEditor → option NuclideUri.

(** [if (uri == null) return;] and then the [forEach] that replaces the uri
    locations of that path. *)
Definition editorOpened (editor : TextEditor) (w : World) : option World :=
  match getPath editor with
  | None => Some w
  | Some uri =>
      '(h, elements) ←
        forEach_replace
          (λ location,
             match location with
             | UriLocation u p =>
                 if String.eqb u uri then Some (EditorLocation editor p)
                 else None
             | EditorLocation _ _ => None
             end)
          (store w) (_elements (nav w));
      Some {| store := h;
              nav := {| _elements := elements;
                        _index := _index (nav w);
                        _changes := _changes (nav w) |} |}
  end.

(** The predicate [editorClosed] hands to [filter]:
    [location.type !== 'editor' || editor !== location.editor]. *)
Definition not_of_editor (editor : TextEditor) (location : Location) : bool :=
  match location with
  | EditorLocation e _ => negb (Nat.eqb editor e)
  | UriLocation _ _ => true
  end.

(** [if (uri === '' || uri == null)] the entries of the editor are removed
    with [filter]; otherwise the [forEach] replaces them by uri locations. *)
Definition editorClosed (editor : TextEditor) (w : World) : option World :=
  let remove_entries :=
    s ← filter (not_of_editor editor) (store w) (nav w);
    Some {| store := store w; nav := s |} in
  match getPath editor with
  | None => remove_entries
  | Some uri =>
      if String.eqb uri EmptyString then remove_entries
      else
        '(h, elements) ←
          forEach_replace
            (λ location,
               match location with
               | EditorLocation e p =>
                   if Nat.eqb editor e then Some (UriLocation uri p) else None
               | UriLocation _ _ => None
               end)
            (store w) (_elements (nav w));
        Some {| store := h;
                nav := {| _elements := elements;
                          _index := _index (nav w);
                          _changes := _changes (nav w) |} |}
  end.

(** ** Sequences of calls *)

Inductive Op :=
| OpPush (newTop : Ref)
| OpAttemptUpdate (newTop : Ref)
| OpPrevious
| OpNext
| OpEditorOpened (editor : TextEditor)
| OpEditorClosed (editor : TextEditor)
| OpFilter (predicate : Location → bool).

Definition on_nav (w : World) (r : option NavigationStack) : option World :=
  s ← r; Some {| store := store w; nav := s |}.

Definition run_op (op : Op) (w : World) : option World :=
  match op with
  | OpPush newTop => on_nav w (push newTop (nav w))
  | OpAttemptUpdate newTop => attemptUpdate newTop w
  | OpPrevious => on_nav w (snd <$> previous (nav w))
  | OpNext => on_nav w (snd <$> next (nav w))
  | OpEditorOpened editor => editorOpened editor w
  | OpEditorClosed editor => editorClosed editor w
  | OpFilter predicate => on_nav w (filter predicate (store w) (nav w))
  end.

Fixpoint run (ops : list Op) (w : World) : option World :=
  match ops with
  | [] => Some w
  | op :: rest => w1 ← run_op op w; run rest w1
  end.

End Editors.

(** A freshly constructed stack, in a program whose callers hold the
    location objects [h]. *)
Definition new_world (h : Store) : World :=
  {| store := h; nav := constructor |}.

(** What [getLocations()] shows: the objects the entries refer to. *)
Definition locations (w : World) : list (option Location) :=
  (λ r, store w !! r) <$> _elements (nav w).

(** [f] applied to every entry shown. *)
Definition on_entries (f : Location → Location)
    (entries : list (option Location)) : list (option Location) :=
  (λ entry : option Location, f <$> entry) <$> entries.

(** A sequence of [push] calls. *)
Definition push_all (newTops : list Ref) (s : NavigationStack)
  : option NavigationStack :=
  foldl (λ acc newTop, acc ≫= push newTop) (Some s) newTops.

(** ** Well-formed states *)

(** The bound on the depth and the position of the cursor: inside the array,
    or [-1] when the array is empty. *)
Definition wf_nav (s : NavigationStack) : Prop :=
  length (_elements s) ≤ MAX_STACK_DEPTH ∧
  (-1 ≤ _index s < Z.of_nat (length (_elements s)))%Z ∧
  (_elements s ≠ [] → (0 ≤ _index s)%Z).

(** Every reference of [refs] points to an object of [h]. *)
Definition valid_refs (h : Store) (refs : list Ref) : Prop :=
  Forall (λ r, r < length h) refs.

Record wf (w : World) : Prop := {
  wf_stack : wf_nav (nav w);
  wf_refs : valid_refs (store w) (_elements (nav w));
}.

(** The arguments of a call are objects the caller holds in [h]. *)
Definition op_ok (h : Store) (op : Op) : Prop :=
  match op with
  | OpPush newTop | OpAttemptUpdate newTop => newTop < length h
  | _ => True
  end.

(** [push] on a well-formed stack, written with the list functions: the
    array keeps the entries up to the cursor, gets the new one at its end
    and loses its first entry when that makes more than [MAX_STACK_DEPTH]. *)
Definition evict_oldest (elements : list Ref) : list Ref :=
  if (MAX_STACK_DEPTH <? length elements)%nat then drop 1 elements
  else elements.

Definition up_to_cursor (s : NavigationStack) : list Ref :=
  take (Z.to_nat (_index s + 1)) (_elements s).

(** The state [push] computes on a well-formed stack. *)
Definition pushed (newTop : Ref) (s : NavigationStack) : NavigationStack :=
  let elements := evict_oldest (up_to_cursor s ++ [newTop]) in
  {| _elements := elements;
     _index := Z.of_nat (length elements) - 1;
     _changes := S (_changes s) |}.

(** Whether the object behind [r] passes [predicate]. *)
Definition passes (predicate : Location → bool) (h : Store) (r : Ref) : bool :=
  match h !! r with
  | Some location => predicate location
  | None => false
  end.

(** The number of entries at an index [<= cursor] that fail [predicate]. *)
Definition removed_up_to (predicate : Location → bool) (h : Store)
    (cursor : Z) (elements : list Ref) : nat :=
  length (List.filter (λ r, negb (passes predicate h r))
                      (take (Z.to_nat (cursor + 1)) elements)).

(** The state [filter] computes, written with the list functions. *)
Definition filtered (predicate : Location → bool) (h : Store)
    (s : NavigationStack) : NavigationStack :=
  let elements := List.filter (passes predicate h) (_elements s) in
  {| _elements := elements;
     _index :=
       Z.min (Z.max (_index s -
                     Z.of_nat (removed_up_to predicate h (_index s) (_elements s)))
                    0)
             (Z.of_nat (length elements) - 1);
     _changes :=
       if decide (length elements = length (_elements s)) then _changes s
       else S (_changes s) |}.

(** The conversions of [editorOpened] and [editorClosed], entry by entry. *)
Definition opened_entry (editor : TextEditor) (path : NuclideUri)
    (location : Location) : Location :=
  match location with
  | UriLocation u p =>
      if String.eqb u path then EditorLocation editor p else location
  | EditorLocation _ _ => location
  end.

Definition closed_entry (editor : TextEditor) (path : NuclideUri)
    (location : Location) : Location :=
  match location with
  | EditorLocation e p =>
      if Nat.eqb editor e then UriLocation path p else location
  | UriLocation _ _ => location
  end.

(** ** A small program to run the operations on

    Editor 0 is saved as [a.js] and editor 3 as [b.js]; editor 1 has the
    empty path and editor 2 has none.  The callers hold four location
    objects. *)
Definition example_getPath (editor : TextEditor) : option NuclideUri :=
  match editor with
  | 0 => Some "a.js"%string
  | 1 => Some EmptyString
  | 2 => None
  | _ => Some "b.js"%string
  end.

Definition example_store : Store :=
  [EditorLocation 0 (1, 1); EditorLocation 3 (2, 2);
   EditorLocation 0 (3, 3); EditorLocation 2 (4, 4)].

Definition example_ops : list Op :=
  [OpPush 0; OpPush 1; OpPush 3; OpPrevious; OpEditorClosed 0;
   OpEditorOpened 0; OpEditorClosed 2; OpAttemptUpdate 2; OpPrevious;
   OpFilter (λ location, negb (Nat.eqb (fst (bufferPosition location)) 2));
   OpNext].

Definition example_stack : NavigationStack :=
  {| _elements := [0; 1; 3]; _index := 1; _changes := 4 |}.

(** A stack whose only entry is an open location of editor 0, as
    [push] leaves it on a fresh stack. *)
Definition example_open_world : World :=
  {| store := example_store;
     nav := {| _elements := [0]; _index := 0; _changes := 1 |} |}.

(** A stack with a closed location of [a.js] between two open ones, the
    cursor on the last entry. *)
Definition example_closed_world : World :=
  {| store := example_store ++ [UriLocation "a.js" (5, 5)];
     nav := {| _elements := [1; 4; 2]; _index := 2; _changes := 3 |} |}.

(** A stack of four entries with the cursor on the third, as [push] of the
    objects 0, 1, 3 and 2 and one [previous()] leave it. *)
Definition example_long_stack : NavigationStack :=
  {| _elements := [0; 1; 3; 2]; _index := 2; _changes := 5 |}.

(** A stack on which the object 0 has been pushed twice, with the cursor on
    its second occurrence: [push] of the objects 1, 0, 2 and 0. *)
Definition example_shared_world : World :=
  {| store := example_store;
     nav := {| _elements := [1; 0; 2; 0]; _index := 3; _changes := 4 |} |}.

(** The same entries with the cursor on the first one, an open location of
    editor 3. *)
Definition example_other_editor_world : World :=
  {| store := example_store;
     nav := {| _elements := [1; 0; 2; 0]; _index := 0; _changes := 7 |} |}.

(** The entry that is current once [filter] has run: the last surviving
    entry at or before the cursor, or else the first surviving entry. *)
Definition surviving_current (predicate : Location → bool) (h : Store)
    (s : NavigationStack) : option Ref :=
  match last (List.filter (passes predicate h) (up_to_cursor s)) with
  | Some r => Some r
  | None => head (List.filter (passes predicate h) (_elements s))
  end.

(** Whether an entry shown is an open location of [editor]. *)
Definition entry_of_editor (editor : TextEditor) (entry : option Location)
  : bool :=
  match entry with
  | Some (EditorLocation e _) => Nat.eqb editor e
  | _ => false
  end.

(** * RemoteDebugClient

    [vs-py-debugger/out/client/debugger/debugAdapter/DebugClients/RemoteDebugClient.js].
    The client makes debug servers with [new RemoteDebugServerV2(...)] and
    stops them with their [Stop()] method.  The server class and the parent
    class [DebugClient], which sets [args] and [debugSession], live in other
    files, so a server is known here by the order in which it was
    constructed, and the state records, next to the fields of the client,
    what happened to the servers: the arguments each was constructed with
    and the [Stop()] calls they received, in order. *)
Abbreviation DebugServer := nat (only parsing).

Record RemoteDebugClient := {
  args : nat;
  debugSession : nat;
  debugServer : option DebugServer;
  constructed : list (nat * nat);
  stopped : list DebugServer;
}.

(** [this.debugServer = new RemoteDebugServerV2(this.debugSession, this.args);
    return this.debugServer;] *)
Definition CreateDebugServer (c : RemoteDebugClient)
  : DebugServer * RemoteDebugClient :=
  let server := length (constructed c) in
  (server,
   {| args := args c;
      debugSession := debugSession c;
      debugServer := Some server;
      constructed := constructed c ++ [(debugSession c, args c)];
      stopped := stopped c |}).

(** [if (this.debugServer) { this.debugServer.Stop();
    this.debugServer = undefined; }] *)
Definition Stop (c : RemoteDebugClient) : RemoteDebugClient :=
  match debugServer c with
  | Some server =>
      {| args := args c;
         debugSession := debugSession c;
         debugServer := None;
         constructed := constructed c;
         stopped := stopped c ++ [server] |}
  | None => c
  end.

(** A client that has its [args] and [debugSession] and has made no server
    yet. *)
Definition new_client (a session : nat) : RemoteDebugClient :=
  {| args := a; debugSession := session; debugServer := None;
     constructed := []; stopped := [] |}.

Inductive ClientCall :=
| CallCreateDebugServer
| CallStop.

Definition client_call (call : ClientCall) (c : RemoteDebugClient)
  : RemoteDebugClient :=
  match call with
  | CallCreateDebugServer => snd (CreateDebugServer c)
  | CallStop => Stop c
  end.

Definition client_calls (calls : list ClientCall) (c : RemoteDebugClient)
  : RemoteDebugClient :=
  foldl (λ c call, client_call call c) c calls.

(** What holds of a client however it was used: the server it holds is the
    last one constructed and has not been stopped, and the stopped servers
    are constructed ones, each stopped once. *)
Definition client_inv (c : RemoteDebugClient) : Prop :=
  NoDup (stopped c) ∧
  Forall (λ server, server < length (constructed c)) (stopped c) ∧
  (∀ server, debugServer c = Some server →
             S server = length (constructed c) ∧ server ∉ stopped c).

(** * Properties *)

(** ** [push], [previous], [next] *)

Lemma splice_start_cursor (i : Z) (len : nat) :
  (-1 ≤ i < Z.of_nat len)%Z → splice_start (i + 1) len = Z.to_nat (i + 1).
Proof.
  intros Hi. unfold splice_start.
  destruct (Z.ltb_spec (i + 1) 0); lia.
Qed.

Lemma length_evict_oldest (l : list Ref) :
  length l ≤ S MAX_STACK_DEPTH → length (evict_oldest l) ≤ MAX_STACK_DEPTH.
Proof.
  intros Hl. unfold evict_oldest.
  destruct (Nat.ltb_spec MAX_STACK_DEPTH (length l)).
  - rewrite length_drop. lia.
  - lia.
Qed.

Lemma length_up_to_cursor (s : NavigationStack) :
  wf_nav s → length (up_to_cursor s) = Z.to_nat (_index s + 1).
Proof.
  intros (_ & Hi & _). unfold up_to_cursor. rewrite length_take. lia.
Qed.

(** On a well-formed stack [push] returns, and the result is built from the
    entries up to the cursor. *)
Lemma push_wf_eq (newTop : Ref) (s : NavigationStack) :
  wf_nav s → push newTop s = Some (pushed newTop s).
Proof.
  intros Hwf. pose proof (length_up_to_cursor s Hwf) as Hlen.
  destruct Hwf as (Hd & Hi & _).
  unfold push, pushed. rewrite splice_start_cursor by done.
  fold (up_to_cursor s). fold (evict_oldest (up_to_cursor s ++ [newTop])).
  assert (length (evict_oldest (up_to_cursor s ++ [newTop])) ≤ MAX_STACK_DEPTH)
    as Hle.
  { apply length_evict_oldest. rewrite length_app, Hlen. simpl. lia. }
  apply Nat.leb_le in Hle. rewrite Hle. reflexivity.
Qed.

Lemma evict_oldest_nonempty (l : list Ref) (r : Ref) :
  evict_oldest (l ++ [r]) ≠ [].
Proof.
  unfold evict_oldest.
  destruct (Nat.ltb_spec MAX_STACK_DEPTH (length (l ++ [r]))) as [Hlt|_].
  - intros Hnil. apply (f_equal length) in Hnil.
    rewrite length_drop in Hnil. unfold MAX_STACK_DEPTH in Hlt. simpl in Hnil. lia.
  - destruct l; discriminate.
Qed.

Lemma pushed_wf (newTop : Ref) (s : NavigationStack) :
  wf_nav s → wf_nav (pushed newTop s).
Proof.
  intros Hwf. pose proof (length_up_to_cursor s Hwf) as Hlen.
  pose proof (evict_oldest_nonempty (up_to_cursor s) newTop) as Hne.
  assert (length (evict_oldest (up_to_cursor s ++ [newTop])) ≤ MAX_STACK_DEPTH)
    as Hle.
  { destruct Hwf as (Hd & Hi & _).
    apply length_evict_oldest. rewrite length_app, Hlen. simpl. lia. }
  unfold wf_nav, pushed. cbn [_elements _index].
  destruct (evict_oldest (up_to_cursor s ++ [newTop])) as [|x l] eqn:E; [done|].
  repeat split; simpl in *; lia.
Qed.

Lemma elem_of_evict_oldest (l : list Ref) (r : Ref) :
  r ∈ evict_oldest l → r ∈ l.
Proof.
  unfold evict_oldest. destruct (_ <? _)%nat; [|done].
  intros Hin. apply list_elem_of_lookup in Hin as [i Hi].
  rewrite lookup_drop in Hi. by eapply list_elem_of_lookup_2.
Qed.

Lemma pushed_valid_refs (h : Store) (newTop : Ref) (s : NavigationStack) :
  valid_refs h (_elements s) → newTop < length h →
  valid_refs h (_elements (pushed newTop s)).
Proof.
  intros Hv Hr. unfold valid_refs, pushed in *. cbn [_elements].
  rewrite Forall_forall in *.
  intros r Hin. apply elem_of_evict_oldest in Hin.
  apply elem_of_app in Hin as [Hin|Hin].
  - apply Hv. unfold up_to_cursor in Hin.
    apply list_elem_of_lookup in Hin as [i Hi].
    apply lookup_take_Some in Hi as [Hi _]. by eapply list_elem_of_lookup_2.
  - apply list_elem_of_singleton in Hin. by subst.
Qed.

Lemma getCurrent_in_range (s : NavigationStack) :
  (0 ≤ _index s < Z.of_nat (length (_elements s)))%Z →
  ∃ r, getCurrent s = Some r ∧ _elements s !! Z.to_nat (_index s) = Some r.
Proof.
  intros Hi. unfold getCurrent.
  destruct (Z.leb_spec 0 (_index s)); [|lia].
  destruct (Z.ltb_spec (_index s) (Z.of_nat (length (_elements s)))); [|lia].
  simpl. destruct (lookup_lt_is_Some_2 (_elements s) (Z.to_nat (_index s)))
    as [r Hr]; [lia|]. eauto.
Qed.

Lemma previous_wf_eq (s : NavigationStack) :
  wf_nav s → hasPrevious s = true →
  ∃ r, getCurrent (set_index (_index s - 1) s) = Some r ∧
       previous s = Some (Some r, _hasChanged (set_index (_index s - 1) s)).
Proof.
  intros (_ & Hi & _) Hp. unfold previous. rewrite Hp.
  unfold hasPrevious in Hp. apply Z.ltb_lt in Hp.
  destruct (getCurrent_in_range (set_index (_index s - 1) s)) as (r & Hr & _).
  { simpl. lia. }
  exists r. by rewrite Hr.
Qed.

Lemma next_wf_eq (s : NavigationStack) :
  wf_nav s → hasNext s = true →
  ∃ r, getCurrent (set_index (_index s + 1) s) = Some r ∧
       next s = Some (Some r, _hasChanged (set_index (_index s + 1) s)).
Proof.
  intros (_ & Hi & _) Hn. unfold next. rewrite Hn.
  unfold hasNext in Hn. apply Z.ltb_lt in Hn.
  destruct (getCurrent_in_range (set_index (_index s + 1) s)) as (r & Hr & _).
  { simpl. lia. }
  exists r. by rewrite Hr.
Qed.

Lemma previous_wf (s s' : NavigationStack) (result : option Ref) :
  wf_nav s → previous s = Some (result, s') →
  wf_nav s' ∧ _elements s' = _elements s.
Proof.
  intros Hwf Hp. destruct (hasPrevious s) eqn:E.
  - destruct (previous_wf_eq s Hwf E) as (r & _ & Heq).
    rewrite Heq in Hp. injection Hp as _ <-.
    unfold hasPrevious in E. apply Z.ltb_lt in E.
    destruct Hwf as (Hd & Hi & Hne). split; [|done].
    repeat split; simpl; lia.
  - unfold previous in Hp. rewrite E in Hp. by injection Hp as _ <-.
Qed.

Lemma next_wf (s s' : NavigationStack) (result : option Ref) :
  wf_nav s → next s = Some (result, s') →
  wf_nav s' ∧ _elements s' = _elements s.
Proof.
  intros Hwf Hp. destruct (hasNext s) eqn:E.
  - destruct (next_wf_eq s Hwf E) as (r & _ & Heq).
    rewrite Heq in Hp. injection Hp as _ <-.
    unfold hasNext in E. apply Z.ltb_lt in E.
    destruct Hwf as (Hd & Hi & Hne). split; [|done].
    repeat split; simpl; lia.
  - unfold next in Hp. rewrite E in Hp. by injection Hp as _ <-.
Qed.

(** ** [filter] *)

Lemma filter_scan_eq (predicate : Location → bool) (h : Store) (cursor : Z)
    (elements : list Ref) :
  valid_refs h elements →
  ∀ index newIndex,
    filter_scan predicate h cursor index elements newIndex =
      Some (List.filter (passes predicate h) elements,
            (newIndex -
             Z.of_nat (length (List.filter (λ r, negb (passes predicate h r))
                                 (take (Z.to_nat (cursor + 1 - index)) elements))))%Z).
Proof.
  induction 1 as [|r rest Hr _ IH]; intros index newIndex.
  - simpl. rewrite take_nil. simpl. f_equal. f_equal. lia.
  - destruct (lookup_lt_is_Some_2 h r Hr) as [location Hloc].
    assert (passes predicate h r = predicate location) as Hp.
    { unfold passes. by rewrite Hloc. }
    cbn [filter_scan]. rewrite Hloc. cbn [mbind option_bind].
    rewrite IH. cbn [mbind option_bind List.filter]. rewrite Hp.
    destruct (Z.leb_spec index cursor) as [Hle|Hgt].
    + replace (Z.to_nat (cursor + 1 - index))
        with (S (Z.to_nat (cursor + 1 - (index + 1)))) by lia.
      cbn [take List.filter]. rewrite Hp.
      destruct (predicate location); simpl; f_equal; f_equal; lia.
    + replace (Z.to_nat (cursor + 1 - index)) with 0 by lia.
      replace (Z.to_nat (cursor + 1 - (index + 1))) with 0 by lia.
      rewrite !take_0. rewrite andb_false_r.
      destruct (predicate location); simpl; f_equal; f_equal; lia.
Qed.

Lemma filter_eq (predicate : Location → bool) (h : Store) (s : NavigationStack) :
  valid_refs h (_elements s) →
  filter predicate h s = Some (filtered predicate h s).
Proof.
  intros Hv. unfold filter. rewrite (filter_scan_eq _ _ _ _ Hv).
  cbn [mbind option_bind]. unfold filtered, removed_up_to.
  rewrite Z.sub_0_r. f_equal.
  destruct (Nat.eqb_spec (length (_elements s))
              (length (List.filter (passes predicate h) (_elements s))))
    as [Heq|Hne]; simpl.
  - rewrite decide_True by done. done.
  - rewrite decide_False by done. done.
Qed.

Lemma length_filter_le {A} (f : A → bool) (l : list A) :
  length (List.filter f l) ≤ length l.
Proof. induction l as [|x l IH]; simpl; [lia|]. destruct (f x); simpl; lia. Qed.

Lemma filtered_wf (predicate : Location → bool) (h : Store)
    (s : NavigationStack) :
  length (_elements s) ≤ MAX_STACK_DEPTH → wf_nav (filtered predicate h s).
Proof.
  intros Hd. unfold wf_nav, filtered. cbn [_elements _index].
  pose proof (length_filter_le (passes predicate h) (_elements s)) as Hle.
  destruct (List.filter (passes predicate h) (_elements s)) as [|x l].
  - simpl. repeat split; try lia. done.
  - simpl in *. repeat split; lia.
Qed.

Lemma filtered_valid_refs (predicate : Location → bool) (h : Store)
    (s : NavigationStack) :
  valid_refs h (_elements s) → valid_refs h (_elements (filtered predicate h s)).
Proof.
  unfold valid_refs. rewrite !Forall_forall. intros Hv r Hin. apply Hv.
  apply list_elem_of_In in Hin. apply filter_In in Hin as [Hin _].
  by apply list_elem_of_In.
Qed.

(** ** [forEach] with replacement *)

Lemma valid_refs_app (h extra : Store) (refs : list Ref) :
  valid_refs h refs → valid_refs (h ++ extra) refs.
Proof.
  unfold valid_refs. intros Hv. eapply Forall_impl; [exact Hv|].
  intros r Hr. simpl in *. rewrite length_app. lia.
Qed.

Lemma forEach_replace_eq (convert : Location → option Location)
    (elements : list Ref) :
  ∀ h : Store,
    valid_refs h elements →
    ∃ extra elements',
      forEach_replace convert h elements = Some (h ++ extra, elements') ∧
      valid_refs (h ++ extra) elements' ∧
      (λ r, (h ++ extra) !! r) <$> elements' =
        (λ r, (λ location, default location (convert location)) <$> h !! r)
          <$> elements.
Proof.
  induction elements as [|r rest IH]; intros h Hv.
  - exists [], []. rewrite app_nil_r. repeat split; constructor.
  - apply Forall_cons in Hv as [Hr Hv].
    destruct (lookup_lt_is_Some_2 h r Hr) as [location Hloc].
    cbn [forEach_replace]. rewrite Hloc. cbn [mbind option_bind].
    destruct (convert location) as [fresh|] eqn:Hc.
    + unfold alloc.
      destruct (IH (h ++ [fresh])) as (extra & rest' & Heq & Hv' & Hview).
      { by apply valid_refs_app. }
      exists ([fresh] ++ extra), (length h :: rest').
      rewrite Heq. cbn [mbind option_bind]. rewrite !app_assoc.
      split; [done|]. split.
      * apply Forall_cons. split; [|done]. rewrite !length_app. simpl. lia.
      * rewrite !fmap_cons. f_equal.
        -- rewrite lookup_app_l by (rewrite length_app; simpl; lia).
           rewrite lookup_app_r by lia. rewrite Nat.sub_diag, Hloc. simpl.
           by rewrite Hc.
        -- rewrite Hview. apply Forall_fmap_ext. eapply Forall_impl; [exact Hv|].
           intros r0 Hr0. simpl. by rewrite lookup_app_l.
    + destruct (IH h Hv) as (extra & rest' & Heq & Hv' & Hview).
      exists extra, (r :: rest'). rewrite Heq. cbn [mbind option_bind].
      split; [done|]. split.
      * apply Forall_cons. split; [|done]. rewrite length_app. lia.
      * rewrite !fmap_cons. f_equal; [|done].
        rewrite lookup_app_l by done. rewrite Hloc. simpl. by rewrite Hc.
Qed.

(** ** [getCurrentEditor] and [attemptUpdate] *)

Lemma hasCurrent_true (s : NavigationStack) :
  hasCurrent s = true ↔ _elements s ≠ [].
Proof.
  unfold hasCurrent, isEmpty. destruct (_elements s); simpl; split; done.
Qed.

Lemma getCurrent_Some (s : NavigationStack) (r : Ref) :
  getCurrent s = Some r →
  (0 ≤ _index s < Z.of_nat (length (_elements s)))%Z ∧
  _elements s !! Z.to_nat (_index s) = Some r.
Proof.
  unfold getCurrent.
  destruct (Z.leb_spec 0 (_index s)); simpl; [|done].
  destruct (Z.ltb_spec (_index s) (Z.of_nat (length (_elements s)))); [|done].
  intros Hr. split; [lia|done].
Qed.

Lemma getCurrentEditor_Some (h : Store) (s : NavigationStack)
    (editor : TextEditor) :
  getCurrentEditor h s = Some (Some editor) →
  ∃ current q,
    getCurrent s = Some current ∧ h !! current = Some (EditorLocation editor q).
Proof.
  unfold getCurrentEditor. destruct (negb (hasCurrent s)); [done|].
  destruct (getCurrent s) as [current|]; [|done]. cbn [mbind option_bind].
  destruct (h !! current) as [[e q|u q]|] eqn:Hobj; cbn [mbind option_bind];
    [|done|done].
  intros [= ->]. eauto.
Qed.

Lemma getCurrentEditor_wf (w : World) :
  wf w → is_Some (getCurrentEditor (store w) (nav w)).
Proof.
  intros [(Hd & Hi & Hne) Hv]. unfold getCurrentEditor.
  destruct (hasCurrent (nav w)) eqn:Hc; [|by eexists].
  apply hasCurrent_true in Hc. specialize (Hne Hc).
  destruct (getCurrent_in_range (nav w)) as (r & Hr & Hl); [lia|].
  rewrite Hr. simpl.
  unfold valid_refs in Hv. rewrite Forall_forall in Hv.
  destruct (lookup_lt_is_Some_2 (store w) r) as [obj Hobj].
  { apply Hv. by eapply list_elem_of_lookup_2. }
  rewrite Hobj. simpl. by eexists.
Qed.

Lemma same_editor_true (c : option TextEditor) (editor : TextEditor) :
  same_editor c (Some editor) = true ↔ c = Some editor.
Proof.
  destruct c as [e|]; simpl; [|split; done].
  rewrite Nat.eqb_eq. split; congruence.
Qed.

Lemma attemptUpdate_wf (newTop : Ref) (w : World) :
  wf w → newTop < length (store w) →
  ∃ w', attemptUpdate newTop w = Some w' ∧ wf w' ∧
        length (store w') = length (store w).
Proof.
  intros Hwf Hr. destruct (getCurrentEditor_wf w Hwf) as [c Hc].
  destruct (lookup_lt_is_Some_2 (store w) newTop Hr) as [obj Hobj].
  unfold attemptUpdate. rewrite Hc. cbn [mbind option_bind].
  rewrite Hobj. cbn [mbind option_bind].
  destruct (same_editor c (editor_field obj)) eqn:Hsame.
  - destruct c as [e|]; [|done].
    destruct (getCurrentEditor_Some _ _ _ Hc) as (current & q & Hcur & Hq).
    rewrite Hcur. cbn [mbind option_bind]. rewrite Hq. cbn [mbind option_bind].
    eexists. split; [done|]. destruct Hwf as [Hs Hv].
    split; [split; [done|]|]; simpl.
    + unfold valid_refs in *. by rewrite length_insert.
    + by rewrite length_insert.
  - destruct Hwf as [Hs Hv]. rewrite (push_wf_eq newTop _ Hs).
    cbn [mbind option_bind]. eexists. split; [done|]. split; [|done].
    split; cbn [nav store].
    + by apply pushed_wf.
    + by apply pushed_valid_refs.
Qed.

(** ** [editorOpened] and [editorClosed] *)

Lemma wf_nav_same_shape (s s' : NavigationStack) :
  length (_elements s') = length (_elements s) → _index s' = _index s →
  wf_nav s → wf_nav s'.
Proof.
  intros Hl Hi (Hd & Hr & Hne). unfold wf_nav. rewrite Hl, Hi.
  repeat split; try lia. intros Hn. apply Hne. intros Hnil.
  rewrite Hnil in Hl. by destruct (_elements s').
Qed.

Lemma locations_fmap (f : Location → Location) (w : World) :
  on_entries f (locations w) = (λ r, f <$> store w !! r) <$> _elements (nav w).
Proof. unfold on_entries, locations. by rewrite <- list_fmap_compose. Qed.

Lemma opened_entry_convert (editor : TextEditor) (path : NuclideUri)
    (location : Location) :
  default location
    (match location with
     | UriLocation u p =>
         if String.eqb u path then Some (EditorLocation editor p) else None
     | EditorLocation _ _ => None
     end) = opened_entry editor path location.
Proof. destruct location as [e p|u p]; simpl; [done|]. by destruct (u =? path)%string. Qed.

Lemma closed_entry_convert (editor : TextEditor) (path : NuclideUri)
    (location : Location) :
  default location
    (match location with
     | EditorLocation e p =>
         if Nat.eqb editor e then Some (UriLocation path p) else None
     | UriLocation _ _ => None
     end) = closed_entry editor path location.
Proof. destruct location as [e p|u p]; simpl; [|done]. by destruct (editor =? e). Qed.

Section EditorLemmas.

Variable getPath : TextEditor → option NuclideUri.

Lemma editorOpened_eq (editor : TextEditor) (path : NuclideUri) (w : World) :
  getPath editor = Some path →
  valid_refs (store w) (_elements (nav w)) →
  ∃ extra elements',
    let w' := {| store := store w ++ extra;
                 nav := {| _elements := elements';
                           _index := _index (nav w);
                           _changes := _changes (nav w) |} |} in
    editorOpened getPath editor w = Some w' ∧
    valid_refs (store w') elements' ∧
    locations w' = on_entries (opened_entry editor path) (locations w).
Proof.
  intros Hp Hv. unfold editorOpened. rewrite Hp.
  match goal with |- context [forEach_replace ?c _ _] =>
    destruct (forEach_replace_eq c _ _ Hv) as (extra & elements' & Heq & Hv' & Hview)
  end.
  exists extra, elements'. rewrite Heq. cbn [mbind option_bind].
  split; [done|]. split; [done|].
  rewrite locations_fmap. unfold locations at 1. cbn [store nav _elements].
  rewrite Hview. apply list_fmap_ext. intros _ r _.
  destruct (store w !! r) as [location|]; simpl; [|done].
  by rewrite opened_entry_convert.
Qed.

Lemma editorClosed_eq (editor : TextEditor) (path : NuclideUri) (w : World) :
  getPath editor = Some path → path ≠ EmptyString →
  valid_refs (store w) (_elements (nav w)) →
  ∃ extra elements',
    let w' := {| store := store w ++ extra;
                 nav := {| _elements := elements';
                           _index := _index (nav w);
                           _changes := _changes (nav w) |} |} in
    editorClosed getPath editor w = Some w' ∧
    valid_refs (store w') elements' ∧
    locations w' = on_entries (closed_entry editor path) (locations w).
Proof.
  intros Hp Hne Hv. unfold editorClosed. rewrite Hp.
  apply String.eqb_neq in Hne. rewrite Hne.
  match goal with |- context [forEach_replace ?c _ _] =>
    destruct (forEach_replace_eq c _ _ Hv) as (extra & elements' & Heq & Hv' & Hview)
  end.
  exists extra, elements'. rewrite Heq. cbn [mbind option_bind].
  split; [done|]. split; [done|].
  rewrite locations_fmap. unfold locations at 1. cbn [store nav _elements].
  rewrite Hview. apply list_fmap_ext. intros _ r _.
  destruct (store w !! r) as [location|]; simpl; [|done].
  by rewrite closed_entry_convert.
Qed.

Lemma editorClosed_unsaved (editor : TextEditor) (w : World) :
  getPath editor = None ∨ getPath editor = Some EmptyString →
  valid_refs (store w) (_elements (nav w)) →
  editorClosed getPath editor w =
    Some {| store := store w;
            nav := filtered (not_of_editor editor) (store w) (nav w) |}.
Proof.
  intros Hp Hv. unfold editorClosed. rewrite (filter_eq _ _ _ Hv).
  destruct Hp as [-> | ->]; done.
Qed.

Lemma length_locations (w : World) :
  length (locations w) = length (_elements (nav w)).
Proof. unfold locations. by rewrite length_fmap. Qed.

Lemma converted_wf (w w' : World) (f : Location → Location) :
  wf w → valid_refs (store w') (_elements (nav w')) →
  _index (nav w') = _index (nav w) →
  locations w' = on_entries f (locations w) → wf w'.
Proof.
  intros [Hs Hv] Hv' Hi Hview. split; [|done].
  eapply wf_nav_same_shape; [|exact Hi|exact Hs].
  rewrite <- !length_locations, Hview. unfold on_entries. by rewrite length_fmap.
Qed.

(** ** Every call keeps the state well formed *)

Lemma run_op_wf (op : Op) (w : World) :
  wf w → op_ok (store w) op →
  ∃ w', run_op getPath op w = Some w' ∧ wf w' ∧
        length (store w) ≤ length (store w').
Proof.
  intros Hwf Hok. pose proof Hwf as [Hs Hv].
  destruct op as [newTop|newTop| | |editor|editor|predicate]; cbn [run_op].
  - rewrite (push_wf_eq newTop _ Hs). eexists. split; [done|].
    split; [|done]. split; cbn [nav store].
    + by apply pushed_wf.
    + by apply pushed_valid_refs.
  - destruct (attemptUpdate_wf newTop w Hwf Hok) as (w' & Heq & Hwf' & Hl).
    exists w'. split; [done|]. split; [done|lia].
  - destruct (previous (nav w)) as [[result s']|] eqn:Hp.
    + destruct (previous_wf _ _ _ Hs Hp) as [Hs' Hel].
      eexists. split; [done|]. split; [|done]. split; simpl; [done|].
      by rewrite Hel.
    + destruct (hasPrevious (nav w)) eqn:E.
      * destruct (previous_wf_eq _ Hs E) as (r & _ & Heq). congruence.
      * unfold previous in Hp. by rewrite E in Hp.
  - destruct (next (nav w)) as [[result s']|] eqn:Hp.
    + destruct (next_wf _ _ _ Hs Hp) as [Hs' Hel].
      eexists. split; [done|]. split; [|done]. split; simpl; [done|].
      by rewrite Hel.
    + destruct (hasNext (nav w)) eqn:E.
      * destruct (next_wf_eq _ Hs E) as (r & _ & Heq). congruence.
      * unfold next in Hp. by rewrite E in Hp.
  - destruct (getPath editor) as [path|] eqn:Hpath.
    + destruct (editorOpened_eq editor path w Hpath Hv)
        as (extra & elements' & Heq & Hv' & Hview).
      eexists. split; [exact Heq|]. split.
      * by eapply converted_wf.
      * simpl. rewrite length_app. lia.
    + unfold editorOpened. rewrite Hpath. eauto.
  - destruct (getPath editor) as [path|] eqn:Hpath;
      [destruct (decide (path = EmptyString)) as [->|Hne]|].
    + rewrite editorClosed_unsaved by auto. eexists. split; [done|].
      split; [|done]. split; simpl.
      * apply filtered_wf, Hs.
      * by apply filtered_valid_refs.
    + destruct (editorClosed_eq editor path w Hpath Hne Hv)
        as (extra & elements' & Heq & Hv' & Hview).
      eexists. split; [exact Heq|]. split.
      * by eapply converted_wf.
      * simpl. rewrite length_app. lia.
    + rewrite editorClosed_unsaved by auto. eexists. split; [done|].
      split; [|done]. split; simpl.
      * apply filtered_wf, Hs.
      * by apply filtered_valid_refs.
  - rewrite (filter_eq _ _ _ Hv). eexists. split; [done|].
    split; [|done]. split; simpl.
    + apply filtered_wf, Hs.
    + by apply filtered_valid_refs.
Qed.

Lemma op_ok_mono (h h' : Store) (op : Op) :
  length h ≤ length h' → op_ok h op → op_ok h' op.
Proof. intros Hl. destruct op; simpl; try done; lia. Qed.

Lemma run_wf (h : Store) (ops : list Op) :
  Forall (op_ok h) ops →
  ∀ w, wf w → length h ≤ length (store w) →
       ∃ w', run getPath ops w = Some w' ∧ wf w'.
Proof.
  induction 1 as [|op ops Hop _ IH]; intros w Hwf Hl.
  - exists w. done.
  - destruct (run_op_wf op w Hwf) as (w1 & Heq & Hwf1 & Hl1).
    { by eapply op_ok_mono. }
    cbn [run]. rewrite Heq. cbn [mbind option_bind].
    apply IH; [done|lia].
Qed.

End EditorLemmas.

(** ** Whenever a call returns, the stack is well formed

    These hold whatever the references are. *)

Lemma forEach_replace_length (convert : Location → option Location)
    (elements : list Ref) :
  ∀ (h h' : Store) (elements' : list Ref),
    forEach_replace convert h elements = Some (h', elements') →
    length elements' = length elements.
Proof.
  induction elements as [|r rest IH]; intros h h' elements' Heq.
  - by injection Heq as _ <-.
  - cbn [forEach_replace] in Heq.
    destruct (h !! r) as [location|]; [|done]. cbn [mbind option_bind] in Heq.
    destruct (convert location) as [fresh|]; unfold alloc in Heq.
    + destruct (forEach_replace convert (h ++ [fresh]) rest)
        as [[h2 rest']|] eqn:Hrest; [|done].
      injection Heq as _ <-. simpl. f_equal. by eapply IH.
    + destruct (forEach_replace convert h rest)
        as [[h2 rest']|] eqn:Hrest; [|done].
      injection Heq as _ <-. simpl. f_equal. by eapply IH.
Qed.

Lemma filter_scan_length (predicate : Location → bool) (h : Store)
    (cursor : Z) (elements : list Ref) :
  ∀ (index newIndex newIndex' : Z) (kept : list Ref),
    filter_scan predicate h cursor index elements newIndex =
      Some (kept, newIndex') →
    length kept ≤ length elements.
Proof.
  induction elements as [|r rest IH]; intros index newIndex newIndex' kept Heq.
  - by injection Heq as <- _.
  - cbn [filter_scan] in Heq.
    destruct (h !! r) as [location|]; [|done]. cbn [mbind option_bind] in Heq.
    match type of Heq with context [filter_scan ?p ?h ?c ?i ?l ?n] =>
      destruct (filter_scan p h c i l n) as [[kept1 newIndex1]|] eqn:Hrest
    end; [|done].
    injection Heq as <- _. apply IH in Hrest.
    destruct (predicate location); simpl; lia.
Qed.

Lemma filter_wf_nav (predicate : Location → bool) (h : Store)
    (s s' : NavigationStack) :
  length (_elements s) ≤ MAX_STACK_DEPTH →
  filter predicate h s = Some s' → wf_nav s'.
Proof.
  intros Hd. unfold filter.
  destruct (filter_scan predicate h (_index s) 0 (_elements s) (_index s))
    as [[elements newIndex]|] eqn:Hscan; [|done].
  apply filter_scan_length in Hscan. cbn [mbind option_bind]. intros [= <-].
  unfold wf_nav.
  destruct (negb _); cbn [_hasChanged _elements _index];
    (repeat split; [lia..|]); intros Hne; destruct elements; simpl; done || lia.
Qed.

Section Returns.

Variable getPath : TextEditor → option NuclideUri.

Lemma run_op_wf_nav (op : Op) (w w' : World) :
  wf_nav (nav w) → run_op getPath op w = Some w' → wf_nav (nav w').
Proof.
  intros Hs.
  destruct op as [newTop|newTop| | |editor|editor|predicate]; cbn [run_op].
  - rewrite (push_wf_eq newTop _ Hs). intros [= <-]. by apply pushed_wf.
  - unfold attemptUpdate. rewrite (push_wf_eq newTop _ Hs).
    destruct (getCurrentEditor (store w) (nav w)) as [c|]; [|done].
    cbn [mbind option_bind].
    destruct (store w !! newTop) as [obj|]; [|done]. cbn [mbind option_bind].
    destruct (same_editor c (editor_field obj)).
    + destruct (getCurrent (nav w)) as [current|]; [|done].
      cbn [mbind option_bind].
      destruct (store w !! current); [|done]. by intros [= <-].
    + intros [= <-]. by apply pushed_wf.
  - destruct (previous (nav w)) as [[result s']|] eqn:Hp; [|done].
    intros [= <-]. by destruct (previous_wf _ _ _ Hs Hp).
  - destruct (next (nav w)) as [[result s']|] eqn:Hp; [|done].
    intros [= <-]. by destruct (next_wf _ _ _ Hs Hp).
  - unfold editorOpened. destruct (getPath editor) as [path|]; [|by intros [= <-]].
    match goal with |- context [forEach_replace ?c ?h ?l] =>
      destruct (forEach_replace c h l) as [[h' elements']|] eqn:Heq
    end; [|done].
    intros [= <-]. apply forEach_replace_length in Heq.
    by eapply wf_nav_same_shape; [..|exact Hs].
  - unfold editorClosed.
    destruct (filter (not_of_editor editor) (store w) (nav w)) as [s'|] eqn:Hf.
    + apply filter_wf_nav in Hf; [|apply Hs].
      destruct (getPath editor) as [path|]; [|by intros [= <-]].
      destruct (path =? EmptyString)%string; [by intros [= <-]|].
      match goal with |- context [forEach_replace ?c ?h ?l] =>
        destruct (forEach_replace c h l) as [[h' elements']|] eqn:Heq
      end; [|done].
      intros [= <-]. apply forEach_replace_length in Heq.
      by eapply wf_nav_same_shape; [..|exact Hs].
    + destruct (getPath editor) as [path|]; [|done].
      destruct (path =? EmptyString)%string; [done|].
      match goal with |- context [forEach_replace ?c ?h ?l] =>
        destruct (forEach_replace c h l) as [[h' elements']|] eqn:Heq
      end; [|done].
      intros [= <-]. apply forEach_replace_length in Heq.
      by eapply wf_nav_same_shape; [..|exact Hs].
  - destruct (filter predicate (store w) (nav w)) as [s'|] eqn:Hf; [|done].
    intros [= <-]. eapply filter_wf_nav; [|exact Hf]. apply Hs.
Qed.

Lemma run_wf_nav (ops : list Op) :
  ∀ w w', wf_nav (nav w) → run getPath ops w = Some w' → wf_nav (nav w').
Proof.
  induction ops as [|op ops IH]; intros w w' Hs Hrun.
  - by injection Hrun as <-.
  - cbn [run] in Hrun.
    destruct (run_op getPath op w) as [w1|] eqn:Hop; [|done].
    eapply IH; [|exact Hrun]. by eapply run_op_wf_nav.
Qed.

End Returns.

Lemma new_world_wf (h : Store) : wf (new_world h).
Proof. split; [|constructor]. unfold wf_nav. simpl. repeat split; try lia. done. Qed.

(** ** Sequences of [push] *)

Lemma push_all_snoc (newTops : list Ref) (newTop : Ref) (s : NavigationStack) :
  push_all (newTops ++ [newTop]) s = push_all newTops s ≫= push newTop.
Proof. unfold push_all. by rewrite foldl_app. Qed.

Lemma up_to_cursor_top (s : NavigationStack) :
  _index s = (Z.of_nat (length (_elements s)) - 1)%Z →
  up_to_cursor s = _elements s.
Proof. intros Hi. unfold up_to_cursor. apply take_ge. lia. Qed.

Lemma push_all_eq (newTops : list Ref) :
  ∃ s, push_all newTops constructor = Some s ∧
       _elements s = drop (length newTops - MAX_STACK_DEPTH) newTops ∧
       _index s = (Z.of_nat (length (_elements s)) - 1)%Z ∧
       _changes s = length newTops.
Proof.
  induction newTops as [|newTop newTops IH] using rev_ind.
  - exists constructor. done.
  - destruct IH as (s & Heq & Hel & Hi & Hc).
    assert (wf_nav s) as Hwf.
    { pose proof (f_equal length Hel) as Hlen. rewrite length_drop in Hlen.
      unfold wf_nav. rewrite Hi. repeat split; try lia. intros Hne.
      destruct (_elements s); [done|]. simpl. lia. }
    exists (pushed newTop s). rewrite push_all_snoc, Heq. cbn [mbind option_bind].
    split; [by apply push_wf_eq|]. unfold pushed. cbn [_elements _index _changes].
    split; [|split; [done|]].
    + rewrite (up_to_cursor_top s Hi), Hel. unfold evict_oldest.
      rewrite !length_app, length_drop. cbn [length].
      destruct (Nat.ltb_spec MAX_STACK_DEPTH
                  (length newTops - (length newTops - MAX_STACK_DEPTH) + 1))
        as [Hlt|Hge].
      * assert (0 < MAX_STACK_DEPTH) as Hpos by (unfold MAX_STACK_DEPTH; lia).
        rewrite (drop_app_le (drop _ newTops)) by (rewrite length_drop; lia).
        rewrite (drop_app_le newTops) by lia.
        rewrite drop_drop. do 2 f_equal. lia.
      * replace (length newTops - MAX_STACK_DEPTH) with 0 by lia.
        replace (length newTops + 1 - MAX_STACK_DEPTH) with 0 by lia.
        done.
    + rewrite Hc, length_app. simpl. lia.
Qed.

Lemma last_evict_oldest (l : list Ref) (r : Ref) :
  last (evict_oldest (l ++ [r])) = Some r.
Proof.
  unfold evict_oldest.
  destruct (Nat.ltb_spec MAX_STACK_DEPTH (length (l ++ [r]))) as [Hlt|_];
    [|apply last_snoc].
  rewrite length_app in Hlt. cbn [length] in Hlt.
  rewrite drop_app_le by (unfold MAX_STACK_DEPTH in Hlt; lia). apply last_snoc.
Qed.

Lemma filter_empty_index (predicate : Location → bool) (h : Store)
    (s s' : NavigationStack) :
  filter predicate h s = Some s' → _elements s' = [] → _index s' = (-1)%Z.
Proof.
  unfold filter.
  destruct (filter_scan predicate h (_index s) 0 (_elements s) (_index s))
    as [[elements newIndex]|]; cbn [mbind option_bind]; [|done].
  intros [= <-]. destruct (negb _); cbn [_hasChanged _elements _index];
    intros ->; simpl; lia.
Qed.

Lemma wf_nav_sentinel (s : NavigationStack) :
  wf_nav s → (_index s = (-1)%Z ↔ _elements s = []).
Proof.
  intros (_ & Hi & Hne). destruct (_elements s) as [|r l]; simpl in *.
  - split; [done|lia].
  - split; [|done]. intros Hm. assert (0 ≤ _index s)%Z by by apply Hne. lia.
Qed.

(** ** The operations on the example program *)

Example run_example :
  run example_getPath example_ops (new_world example_store) =
    Some {| store := example_store ++
                     [UriLocation "a.js" (1, 1); EditorLocation 0 (1, 1)];
            nav := {| _elements := [5; 2]; _index := 1; _changes := 9 |} |}.
Proof. reflexivity. Qed.

(** The same object pushed twice is one entry object at two indices, and
    [attemptUpdate] writes to it once. *)
Example attemptUpdate_shared_object :
  run example_getPath [OpPush 0; OpPush 0; OpAttemptUpdate 2]
      (new_world example_store) =
    Some {| store := <[0 := EditorLocation 0 (3, 3)]> example_store;
            nav := {| _elements := [0; 0]; _index := 1; _changes := 2 |} |}.
Proof. reflexivity. Qed.

(** An editor without a path is removed from the history when it closes. *)
Example editorClosed_unsaved_example :
  editorClosed example_getPath 2
    {| store := example_store;
       nav := {| _elements := [0; 3; 1]; _index := 2; _changes := 3 |} |} =
    Some {| store := example_store;
            nav := {| _elements := [0; 1]; _index := 1; _changes := 4 |} |}.
Proof. reflexivity. Qed.

(** * The claims *)

(** C1.  Take any sequence of [push], [attemptUpdate], [previous], [next],
    [editorOpened], [editorClosed] and [filter] calls on a freshly
    constructed stack.  In the state it reaches the array has at most 100
    entries and, when it is not empty, the cursor is an index into it.  No
    call of the sequence throws when the locations passed to [push] and
    [attemptUpdate] are objects the callers hold. *)
Theorem depth_and_cursor_invariant
    (getPath : TextEditor → option NuclideUri) (h : Store) (ops : list Op) :
  (∀ w, run getPath ops (new_world h) = Some w →
        length (_elements (nav w)) ≤ 100 ∧
        (_elements (nav w) ≠ [] →
         (0 ≤ _index (nav w) < Z.of_nat (length (_elements (nav w))))%Z)) ∧
  (Forall (op_ok h) ops → is_Some (run getPath ops (new_world h))).
Proof.
  split.
  - intros w Hrun.
    destruct (run_wf_nav getPath ops (new_world h) w) as (Hd & Hi & Hne);
      [apply new_world_wf|exact Hrun|].
    split; [exact Hd|]. intros Hn. specialize (Hne Hn). lia.
  - intros Hok.
    destruct (run_wf getPath h ops Hok (new_world h) (new_world_wf h))
      as (w & Hrun & _); [done|].
    by exists w.
Qed.

Lemma depth_and_cursor_invariant_witness :
  Forall (op_ok example_store) example_ops ∧
  ∃ w, run example_getPath example_ops (new_world example_store) = Some w ∧
       length (_elements (nav w)) ≤ 100 ∧
       (_elements (nav w) ≠ [] →
        (0 ≤ _index (nav w) < Z.of_nat (length (_elements (nav w))))%Z).
Proof.
  assert (Forall (op_ok example_store) example_ops) as Hok.
  { repeat constructor; simpl; lia. }
  split; [exact Hok|].
  destruct (depth_and_cursor_invariant example_getPath example_store example_ops)
    as [Hinv Hreturns].
  destruct (Hreturns Hok) as [w Hrun].
  exists w. split; [exact Hrun|]. exact (Hinv w Hrun).
Defined.

(** C10.  In the state any such sequence of calls reaches, the cursor is
    [-1] exactly when the array is empty; in particular a [filter] that
    leaves no entry sets the cursor to [-1], the value the constructor gives
    it. *)
Theorem cursor_sentinel_iff_empty
    (getPath : TextEditor → option NuclideUri) (h : Store) (ops : list Op) :
  (∀ w, run getPath ops (new_world h) = Some w →
        (_index (nav w) = (-1)%Z ↔ _elements (nav w) = []) ∧
        (∀ predicate s',
           filter predicate (store w) (nav w) = Some s' →
           _elements s' = [] →
           _index s' = (-1)%Z ∧ _index s' = _index constructor)) ∧
  (Forall (op_ok h) ops → is_Some (run getPath ops (new_world h))).
Proof.
  split.
  - intros w Hrun. split.
    + apply wf_nav_sentinel.
      eapply run_wf_nav; [|exact Hrun]. apply new_world_wf.
    + intros predicate s' Hf He.
      pose proof (filter_empty_index _ _ _ _ Hf He) as Hm. by rewrite Hm.
  - intros Hok.
    destruct (run_wf getPath h ops Hok (new_world h) (new_world_wf h))
      as (w & Hrun & _); [done|].
    by exists w.
Qed.

Lemma cursor_sentinel_iff_empty_witness :
  Forall (op_ok example_store) example_ops ∧
  ∃ w, run example_getPath example_ops (new_world example_store) = Some w ∧
       (_index (nav w) = (-1)%Z ↔ _elements (nav w) = []).
Proof.
  assert (Forall (op_ok example_store) example_ops) as Hok.
  { repeat constructor; simpl; lia. }
  split; [exact Hok|].
  destruct (cursor_sentinel_iff_empty example_getPath example_store example_ops)
    as [Hinv Hreturns].
  destruct (Hreturns Hok) as [w Hrun].
  exists w. split; [exact Hrun|]. exact (proj1 (Hinv w Hrun)).
Defined.

(** C2.  On every well-formed stack [push] returns; the array then holds the
    entries up to the old cursor followed by the new entry (less the oldest
    of them if that makes 101), so no entry after the old cursor survives
    and the new entry is the last one; the cursor is [length - 1].  From an
    empty history, [push(A)], [push(B)], [previous()] returns [A], and
    [push(C)] then leaves the entries [A; C], the cursor 1 and no next
    entry. *)
Theorem push_truncates_and_appends :
  (∀ (s : NavigationStack) (newTop : Ref),
     wf_nav s →
     ∃ s', push newTop s = Some s' ∧
           _elements s' = evict_oldest (up_to_cursor s ++ [newTop]) ∧
           (length (up_to_cursor s) < 100 →
            _elements s' = up_to_cursor s ++ [newTop]) ∧
           last (_elements s') = Some newTop ∧
           _index s' = (Z.of_nat (length (_elements s')) - 1)%Z ∧
           _changes s' = S (_changes s)) ∧
  (∀ A B C : Ref,
     ∃ s1 s2 s3 s4,
       push A constructor = Some s1 ∧ push B s1 = Some s2 ∧
       previous s2 = Some (Some A, s3) ∧ push C s3 = Some s4 ∧
       _elements s4 = [A; C] ∧ _index s4 = 1%Z ∧ hasNext s4 = false).
Proof.
  split.
  - intros s newTop Hwf. exists (pushed newTop s).
    split; [by apply push_wf_eq|]. unfold pushed. cbn [_elements _index _changes].
    split; [done|]. split; [|split; [apply last_evict_oldest|done]].
    intros Hlt. unfold evict_oldest. rewrite length_app. cbn [length].
    destruct (Nat.ltb_spec MAX_STACK_DEPTH (length (up_to_cursor s) + 1));
      [unfold MAX_STACK_DEPTH in *; lia|done].
  - intros A B C. by repeat eexists.
Qed.

Lemma push_truncates_and_appends_witness :
  wf_nav example_stack ∧
  ∃ s', push 2 example_stack = Some s' ∧
        _elements s' = [0; 1; 2] ∧ _index s' = 2%Z.
Proof.
  assert (wf_nav example_stack) as Hwf.
  { unfold wf_nav, MAX_STACK_DEPTH. simpl. lia. }
  split; [exact Hwf|].
  destruct (proj1 push_truncates_and_appends example_stack 2 Hwf)
    as (s' & Hp & Hel & _ & _ & Hi & _).
  exists s'. split; [exact Hp|]. split; [exact Hel|].
  rewrite Hi, Hel. reflexivity.
Defined.

(** C3.  A sequence of [push] calls on a fresh stack always returns and
    leaves the last 100 entries pushed (all of them if fewer), so the depth
    never exceeds 100.  Once the depth is 100 a further [push] drops exactly
    the entry at index 0 and appends the new one.  After 101 distinct
    entries the depth is 100 and the first entry pushed is gone. *)
Theorem push_evicts_oldest (newTops : list Ref) :
  ∃ s, push_all newTops constructor = Some s ∧
       _elements s = drop (length newTops - 100) newTops ∧
       length (_elements s) ≤ 100 ∧
       (length (_elements s) = 100 →
        ∀ newTop, ∃ s', push newTop s = Some s' ∧
                        _elements s' = drop 1 (_elements s) ++ [newTop] ∧
                        length (_elements s') = 100) ∧
       (length newTops = 101 → NoDup newTops →
        length (_elements s) = 100 ∧
        ∀ first, head newTops = Some first → first ∉ _elements s).
Proof.
  destruct (push_all_eq newTops) as (s & Heq & Hel & Hi & Hc).
  change MAX_STACK_DEPTH with 100 in Hel.
  pose proof (f_equal length Hel) as Hlen. rewrite length_drop in Hlen.
  exists s. split; [done|]. split; [done|]. split; [lia|]. split.
  - intros H100 newTop.
    assert (wf_nav s) as Hwf.
    { unfold wf_nav, MAX_STACK_DEPTH. rewrite Hi, H100.
      repeat split; lia. }
    exists (pushed newTop s). split; [by apply push_wf_eq|].
    unfold pushed. cbn [_elements]. rewrite (up_to_cursor_top s Hi).
    unfold evict_oldest. rewrite length_app, H100. cbn [length].
    change (MAX_STACK_DEPTH <? 100 + 1)%nat with true. cbn iota.
    rewrite drop_app_le by lia. split; [done|].
    rewrite length_app, length_drop, H100. reflexivity.
  - intros H101 Hnd. split; [lia|]. intros first Hhead.
    rewrite Hel, H101. change (101 - 100) with 1.
    destruct newTops as [|x rest]; [done|]. injection Hhead as ->.
    cbn [drop]. rewrite drop_0. by apply NoDup_cons in Hnd as [Hnot _].
Qed.

Lemma push_evicts_oldest_witness :
  length (seq 0 101) = 101 ∧ NoDup (seq 0 101) ∧
  ∃ s, push_all (seq 0 101) constructor = Some s ∧
       length (_elements s) = 100 ∧ 0 ∉ _elements s.
Proof.
  assert (NoDup (seq 0 101)) as Hnd by apply NoDup_seq.
  split; [reflexivity|]. split; [exact Hnd|].
  destruct (push_evicts_oldest (seq 0 101)) as (s & Hp & _ & _ & _ & H101).
  destruct (H101 eq_refl Hnd) as [Hl Hnot].
  exists s. split; [exact Hp|]. split; [exact Hl|]. exact (Hnot 0 eq_refl).
Defined.

(** C6.  On every well-formed stack: when the cursor is above index 0,
    [hasPrevious()] holds and [previous()] moves the cursor down by one,
    returns the entry of the array at the new cursor, which is then the
    current entry, and publishes one change; when the cursor is at index 0
    or the stack is empty, [hasPrevious()] fails and [previous()] returns
    [null], the state is the same and nothing is published.  [next()] does
    the same upwards: it returns the entry at the cursor plus one while the
    cursor is below the last index, and [null] with the same state when the
    cursor is on the last entry or the stack is empty. *)
Theorem previous_next_spec (s : NavigationStack) :
  wf_nav s →
  ((0 < _index s)%Z →
   hasPrevious s = true ∧
   ∃ r s', previous s = Some (Some r, s') ∧
           _elements s !! Z.to_nat (_index s - 1) = Some r ∧
           _index s' = (_index s - 1)%Z ∧
           _elements s' = _elements s ∧
           getCurrent s' = Some r ∧
           _changes s' = S (_changes s)) ∧
  ((_index s ≤ 0)%Z →
   hasPrevious s = false ∧ previous s = Some (None, s)) ∧
  ((_index s + 1 < Z.of_nat (length (_elements s)))%Z →
   hasNext s = true ∧
   ∃ r s', next s = Some (Some r, s') ∧
           _elements s !! Z.to_nat (_index s + 1) = Some r ∧
           _index s' = (_index s + 1)%Z ∧
           _elements s' = _elements s ∧
           getCurrent s' = Some r ∧
           _changes s' = S (_changes s)) ∧
  ((Z.of_nat (length (_elements s)) ≤ _index s + 1)%Z →
   hasNext s = false ∧ next s = Some (None, s)).
Proof.
  intros Hwf. split; [|split; [|split]].
  - intros Hpos.
    assert (hasPrevious s = true) as E by (unfold hasPrevious; by apply Z.ltb_lt).
    split; [exact E|].
    destruct (previous_wf_eq s Hwf E) as (r & Hr & Heq).
    exists r, (_hasChanged (set_index (_index s - 1) s)).
    split; [exact Heq|]. split; [|by repeat split].
    by apply getCurrent_Some in Hr as [_ Hr].
  - intros Hbottom.
    assert (hasPrevious s = false) as E
      by (unfold hasPrevious; apply Z.ltb_ge; lia).
    split; [exact E|]. unfold previous. by rewrite E.
  - intros Hbelow.
    assert (hasNext s = true) as E by (unfold hasNext; by apply Z.ltb_lt).
    split; [exact E|].
    destruct (next_wf_eq s Hwf E) as (r & Hr & Heq).
    exists r, (_hasChanged (set_index (_index s + 1) s)).
    split; [exact Heq|]. split; [|by repeat split].
    by apply getCurrent_Some in Hr as [_ Hr].
  - intros Htop.
    assert (hasNext s = false) as E by (unfold hasNext; apply Z.ltb_ge; lia).
    split; [exact E|]. unfold next. by rewrite E.
Qed.

Lemma previous_next_spec_witness :
  wf_nav example_long_stack ∧
  (∃ s', previous example_long_stack = Some (Some 1, s') ∧
         _index s' = 1%Z ∧ _elements s' = [0; 1; 3; 2] ∧
         getCurrent s' = Some 1 ∧ _changes s' = 6) ∧
  (∃ s', next example_long_stack = Some (Some 2, s') ∧
         _index s' = 3%Z ∧ _elements s' = [0; 1; 3; 2] ∧
         getCurrent s' = Some 2 ∧ _changes s' = 6).
Proof.
  assert (wf_nav example_long_stack) as Hwf.
  { unfold wf_nav, MAX_STACK_DEPTH. simpl. lia. }
  split; [exact Hwf|].
  destruct (previous_next_spec example_long_stack Hwf)
    as (Hprev & _ & Hnext & _).
  destruct Hprev as (_ & r & s' & Hp & Hr & Hrest); [simpl; lia|].
  destruct Hnext as (_ & r2 & s2 & Hn & Hr2 & Hrest2); [simpl; lia|].
  injection Hr as <-. injection Hr2 as <-.
  split; [by exists s'|by exists s2].
Defined.

(** C4.  On a stack whose entries are objects, [filter] returns; it keeps,
    in order, exactly the entries that pass the predicate; the new cursor is
    the old one less the number of failing entries at an index [<=] the old
    cursor, clamped from below by 0 and from above by [length - 1], so it is
    an index of the new array when that is not empty; one change is
    published when the length differs and none when it does not; and when no
    entry is left the cursor is [-1] and there is no current entry. *)
Theorem filter_spec (predicate : Location → bool) (h : Store)
    (s : NavigationStack) :
  valid_refs h (_elements s) →
  ∃ s', filter predicate h s = Some s' ∧
        _elements s' = List.filter (passes predicate h) (_elements s) ∧
        _index s' =
          Z.min (Z.max (_index s -
                        Z.of_nat (removed_up_to predicate h (_index s)
                                    (_elements s))) 0)
                (Z.of_nat (length (_elements s')) - 1) ∧
        (_elements s' ≠ [] →
         (0 ≤ _index s' < Z.of_nat (length (_elements s')))%Z) ∧
        (length (_elements s') ≠ length (_elements s) →
         _changes s' = S (_changes s)) ∧
        (length (_elements s') = length (_elements s) →
         _changes s' = _changes s) ∧
        (_elements s' = [] → _index s' = (-1)%Z ∧ hasCurrent s' = false).
Proof.
  intros Hv. exists (filtered predicate h s). split; [by apply filter_eq|].
  unfold filtered. cbn [_elements _index _changes].
  split; [done|]. split; [done|]. split; [|split; [|split]].
  - intros Hne.
    destruct (List.filter (passes predicate h) (_elements s)); [done|].
    simpl. lia.
  - intros Hne. by rewrite decide_False.
  - intros Heq. by rewrite decide_True.
  - intros He. rewrite He. split; [simpl; lia|done].
Qed.

Lemma filter_spec_witness :
  valid_refs example_store (_elements example_stack) ∧
  ∃ s', filter (not_of_editor 0) example_store example_stack = Some s' ∧
        _elements s' = [1; 3] ∧ _index s' = 0%Z ∧ _changes s' = 5.
Proof.
  assert (valid_refs example_store (_elements example_stack)) as Hv.
  { repeat constructor; simpl; lia. }
  split; [exact Hv|].
  destruct (filter_spec (not_of_editor 0) example_store example_stack Hv)
    as (s' & Hf & Hel & Hi & _ & Hc & _ & _).
  exists s'. split; [exact Hf|]. split; [exact Hel|].
  split; [by rewrite Hi, Hel|].
  apply Hc. by rewrite Hel.
Defined.

(** C8, as stated: a concrete [filter] that removes every entry leaves the
    cursor at [-1], not at 0.  The stack holds the objects 0, 1 and 3 of the
    example store with the cursor at 1, and the predicate rejects them
    all. *)
Lemma filter_all_leaves_minus_one :
  ∃ s', filter (λ _, false) example_store example_stack = Some s' ∧
        _elements s' = [] ∧ _index s' = (-1)%Z ∧ _index s' ≠ 0%Z.
Proof. eexists. split; [reflexivity|]. by repeat split. Qed.

(** C8, amended.  When [filter] leaves the array empty the cursor is [-1]:
    [Math.min(Math.max(newIndex, 0), length - 1)] is [length - 1] there. *)
Theorem filter_empty_cursor (predicate : Location → bool) (h : Store)
    (s s' : NavigationStack) :
  filter predicate h s = Some s' → _elements s' = [] → _index s' = (-1)%Z.
Proof. apply filter_empty_index. Qed.

Lemma filter_empty_cursor_witness :
  filter (λ _, false) example_store example_stack =
    Some {| _elements := []; _index := -1; _changes := 5 |} ∧
  _index {| _elements := []; _index := -1; _changes := 5 |} = (-1)%Z.
Proof.
  assert (filter (λ _, false) example_store example_stack =
          Some {| _elements := []; _index := -1; _changes := 5 |}) as Hf
    by reflexivity.
  split; [exact Hf|].
  exact (filter_empty_cursor _ _ _ _ Hf eq_refl).
Defined.

(** C5.  Take a stack with a current entry: the cursor is an index of the
    array, [current] is the object at that index and [location] is what it
    holds; let [newTop] be an open location of [editor].  Then
    [getCurrent()] is [current] and [getCurrentEditor()] is its editor, or
    [null] for a uri location.  If that editor is [editor], [attemptUpdate]
    writes the position of [newTop] into the object [current] and does
    nothing else: no other object changes, and the array, the cursor and the
    number of changes published stay as they are; the entry at the cursor,
    and any other index that holds the very same object, then shows the new
    position, and every index that holds another object shows what it
    showed.  If the current entry has another editor or is a uri location,
    [attemptUpdate] is [push]. *)
Theorem attemptUpdate_spec (w : World) (newTop current : Ref)
    (editor : TextEditor) (p : Point) (location : Location) :
  store w !! newTop = Some (EditorLocation editor p) →
  (0 ≤ _index (nav w))%Z →
  _elements (nav w) !! Z.to_nat (_index (nav w)) = Some current →
  store w !! current = Some location →
  getCurrent (nav w) = Some current ∧
  getCurrentEditor (store w) (nav w) = Some (editor_field location) ∧
  (editor_field location = Some editor →
   ∃ w',
     attemptUpdate newTop w = Some w' ∧
     store w' = <[current := EditorLocation editor p]> (store w) ∧
     store w' !! current = Some (EditorLocation editor p) ∧
     (∀ r, r ≠ current → store w' !! r = store w !! r) ∧
     nav w' = nav w ∧
     locations w' !! Z.to_nat (_index (nav w)) =
       Some (Some (EditorLocation editor p)) ∧
     (∀ i, _elements (nav w) !! i = Some current →
           locations w' !! i = Some (Some (EditorLocation editor p))) ∧
     (∀ i r, _elements (nav w) !! i = Some r → r ≠ current →
             locations w' !! i = locations w !! i)) ∧
  (editor_field location ≠ Some editor →
   attemptUpdate newTop w = on_nav w (push newTop (nav w))).
Proof.
  intros Hobj Hpos Hcur Hloc.
  pose proof (lookup_lt_Some _ _ _ Hcur) as Hlt.
  assert (getCurrent (nav w) = Some current) as Hget.
  { destruct (getCurrent_in_range (nav w)) as (r & Hr & Hl); [lia|].
    congruence. }
  assert (getCurrentEditor (store w) (nav w) = Some (editor_field location))
    as Hed.
  { unfold getCurrentEditor.
    assert (hasCurrent (nav w) = true) as ->.
    { apply hasCurrent_true. intros Hnil. rewrite Hnil in Hlt. simpl in Hlt. lia. }
    cbn [negb]. rewrite Hget. cbn [mbind option_bind]. rewrite Hloc.
    by destruct location. }
  split; [exact Hget|]. split; [exact Hed|]. split.
  - intros Hsame. destruct location as [e q|u q]; [|done].
    injection Hsame as ->.
    assert (current < length (store w)) as Hin by by eapply lookup_lt_Some.
    assert (attemptUpdate newTop w =
            Some {| store := <[current := EditorLocation editor p]> (store w);
                    nav := nav w |}) as Hupd.
    { unfold attemptUpdate. rewrite Hed. cbn [mbind option_bind].
      rewrite Hobj. cbn [mbind option_bind editor_field same_editor].
      rewrite Nat.eqb_refl, Hget. cbn [mbind option_bind].
      by rewrite Hloc. }
    eexists. split; [exact Hupd|]. cbn [store nav].
    assert (∀ i, _elements (nav w) !! i = Some current →
                 locations {| store := <[current := EditorLocation editor p]>
                                         (store w);
                              nav := nav w |} !! i =
                   Some (Some (EditorLocation editor p))) as Hshared.
    { intros i Hi. unfold locations. cbn [store nav].
      rewrite list_lookup_fmap, Hi. cbn [fmap option_fmap option_map].
      by rewrite list_lookup_insert_eq. }
    split; [done|]. split; [by apply list_lookup_insert_eq|].
    split; [intros r Hne; by apply list_lookup_insert_ne|].
    split; [done|]. split; [by apply Hshared|]. split; [exact Hshared|].
    intros i r Hi Hne. unfold locations. cbn [store nav].
    rewrite !list_lookup_fmap, Hi. cbn [fmap option_fmap option_map].
    by rewrite list_lookup_insert_ne.
  - intros Hne. unfold attemptUpdate. rewrite Hed. cbn [mbind option_bind].
    rewrite Hobj. cbn [mbind option_bind editor_field].
    destruct (same_editor (editor_field location) (Some editor)) eqn:Hsame;
      [|done].
    by apply same_editor_true in Hsame.
Qed.

Lemma attemptUpdate_spec_witness :
  (store example_shared_world !! 2 = Some (EditorLocation 0 (3, 3)) ∧
   (0 ≤ _index (nav example_shared_world))%Z ∧
   _elements (nav example_shared_world) !! 3 = Some 0 ∧
   store example_shared_world !! 0 = Some (EditorLocation 0 (1, 1)) ∧
   ∃ w', attemptUpdate 2 example_shared_world = Some w' ∧
         nav w' = nav example_shared_world ∧
         locations w' =
           [Some (EditorLocation 3 (2, 2)); Some (EditorLocation 0 (3, 3));
            Some (EditorLocation 0 (3, 3)); Some (EditorLocation 0 (3, 3))]) ∧
  (_elements (nav example_other_editor_world) !! 0 = Some 1 ∧
   store example_other_editor_world !! 1 = Some (EditorLocation 3 (2, 2)) ∧
   attemptUpdate 2 example_other_editor_world =
     Some {| store := example_store;
             nav := {| _elements := [1; 2]; _index := 1; _changes := 8 |} |}).
Proof.
  split.
  - split; [reflexivity|]. split; [simpl; lia|]. split; [reflexivity|].
    split; [reflexivity|].
    destruct (attemptUpdate_spec example_shared_world 2 0 0 (3, 3)
                (EditorLocation 0 (1, 1)) eq_refl ltac:(simpl; lia) eq_refl eq_refl)
      as (_ & _ & Hupdate & _).
    destruct (Hupdate eq_refl) as (w' & Hu & Hst & _ & _ & Hnav & _).
    exists w'. split; [exact Hu|]. split; [exact Hnav|].
    unfold locations. by rewrite Hnav, Hst.
  - split; [reflexivity|]. split; [reflexivity|].
    destruct (attemptUpdate_spec example_other_editor_world 2 1 0 (3, 3)
                (EditorLocation 3 (2, 2)) eq_refl ltac:(simpl; lia) eq_refl eq_refl)
      as (_ & _ & _ & Hpush).
    rewrite Hpush; [reflexivity|discriminate].
Defined.

(** ** [editorOpened] followed by [editorClosed] *)

Lemma closed_opened_entry (editor : TextEditor) (path : NuclideUri)
    (location : Location) :
  closed_entry editor path (opened_entry editor path location) =
    closed_entry editor path location.
Proof.
  destruct location as [e p|u p]; cbn [opened_entry]; [done|].
  destruct (String.eqb_spec u path) as [->|_]; [|done].
  cbn [closed_entry]. by rewrite Nat.eqb_refl.
Qed.

Lemma on_entries_compose (f g : Location → Location)
    (entries : list (option Location)) :
  on_entries f (on_entries g entries) = on_entries (f ∘ g) entries.
Proof.
  unfold on_entries. rewrite <- list_fmap_compose.
  apply list_fmap_ext. intros _ entry _. by destruct entry.
Qed.

Lemma on_entries_ext (f g : Location → Location)
    (entries : list (option Location)) :
  (∀ location, Some location ∈ entries → f location = g location) →
  on_entries f entries = on_entries g entries.
Proof.
  intros Hfg. unfold on_entries. apply list_fmap_ext. intros i entry Hi.
  destruct entry as [location|]; [|done]. simpl. f_equal. apply Hfg.
  by eapply list_elem_of_lookup_2.
Qed.

Lemma on_entries_id (entries : list (option Location)) :
  on_entries id entries = entries.
Proof.
  unfold on_entries. rewrite <- (list_fmap_id entries) at 2.
  apply list_fmap_ext. intros _ entry _. by destruct entry.
Qed.

(** C9.  On a stack whose entries are objects, [editorOpened] is the
    identity when the editor has no path.  When it has one, the call
    returns; every uri entry with that path is now an editor entry of this
    editor with the same position and every other entry is as it was, each
    at its index; the length of the array, the cursor and the number of
    changes published are the same; and no object that existed before is
    modified. *)
Theorem editorOpened_spec (getPath : TextEditor → option NuclideUri)
    (editor : TextEditor) (w : World) :
  valid_refs (store w) (_elements (nav w)) →
  match getPath editor with
  | None => editorOpened getPath editor w = Some w
  | Some path =>
      ∃ w', editorOpened getPath editor w = Some w' ∧
            locations w' = on_entries (opened_entry editor path) (locations w) ∧
            length (_elements (nav w')) = length (_elements (nav w)) ∧
            _index (nav w') = _index (nav w) ∧
            _changes (nav w') = _changes (nav w) ∧
            (∀ r location,
               store w !! r = Some location → store w' !! r = Some location)
  end.
Proof.
  intros Hv. destruct (getPath editor) as [path|] eqn:Hpath.
  - destruct (editorOpened_eq getPath editor path w Hpath Hv)
      as (extra & elements' & Heq & _ & Hview).
    eexists. split; [exact Heq|]. split; [exact Hview|].
    split; [|split; [done|split; [done|]]].
    + rewrite <- !length_locations, Hview. unfold on_entries.
      by rewrite length_fmap.
    + intros r location Hr. cbn [store]. by apply lookup_app_l_Some.
  - unfold editorOpened. by rewrite Hpath.
Qed.

Lemma editorOpened_spec_witness :
  valid_refs (store example_closed_world)
             (_elements (nav example_closed_world)) ∧
  ∃ w', editorOpened example_getPath 0 example_closed_world = Some w' ∧
        locations w' =
          [Some (EditorLocation 3 (2, 2)); Some (EditorLocation 0 (5, 5));
           Some (EditorLocation 0 (3, 3))] ∧
        _index (nav w') = 2%Z ∧ _changes (nav w') = 3.
Proof.
  assert (valid_refs (store example_closed_world)
                     (_elements (nav example_closed_world))) as Hv.
  { repeat constructor; simpl; lia. }
  split; [exact Hv|].
  destruct (editorOpened_spec example_getPath 0 example_closed_world Hv)
    as (w' & Ho & Hview & _ & Hi & Hc & _).
  exists w'. split; [exact Ho|]. split; [by rewrite Hview|]. by split.
Defined.

(** C7, as stated: on the stack that [push] of an open location of editor 0
    leaves, editor 0 being saved as [a.js], [editorOpened] followed by
    [editorClosed] turns the entry into a uri location, so the entries are
    not what they were before the two calls. *)
Lemma closing_converts_open_entries :
  run example_getPath [OpPush 0] (new_world example_store) =
    Some example_open_world ∧
  example_getPath 0 = Some "a.js"%string ∧
  locations example_open_world = [Some (EditorLocation 0 (1, 1))] ∧
  ∃ w1 w2,
    editorOpened example_getPath 0 example_open_world = Some w1 ∧
    editorClosed example_getPath 0 w1 = Some w2 ∧
    locations w2 = [Some (UriLocation "a.js" (1, 1))] ∧
    locations w2 ≠ locations example_open_world.
Proof.
  split; [reflexivity|]. split; [reflexivity|]. split; [reflexivity|].
  do 2 eexists. split; [reflexivity|]. split; [reflexivity|]. by split.
Qed.

(** C7, amended.  For an editor with a non-empty path, on a stack whose
    entries are objects, [editorOpened] followed by [editorClosed] returns
    and leaves every uri entry as it was, uri and position, at its index;
    the length of the array, the cursor and the number of changes published
    are the same.  The editor entries of this editor are now uri entries
    with its path and their position, and the other editor entries are as
    they were; so the entries are all as before when none of them was an
    editor entry of this editor. *)
Theorem opened_then_closed (getPath : TextEditor → option NuclideUri)
    (editor : TextEditor) (path : NuclideUri) (w : World) :
  getPath editor = Some path → path ≠ EmptyString →
  valid_refs (store w) (_elements (nav w)) →
  ∃ w1 w2,
    editorOpened getPath editor w = Some w1 ∧
    editorClosed getPath editor w1 = Some w2 ∧
    locations w2 = on_entries (closed_entry editor path) (locations w) ∧
    (∀ i u p,
       locations w !! i = Some (Some (UriLocation u p)) →
       locations w2 !! i = Some (Some (UriLocation u p))) ∧
    length (_elements (nav w2)) = length (_elements (nav w)) ∧
    _index (nav w2) = _index (nav w) ∧
    _changes (nav w2) = _changes (nav w) ∧
    ((∀ p, Some (EditorLocation editor p) ∉ locations w) →
     locations w2 = locations w).
Proof.
  intros Hpath Hne Hv.
  destruct (editorOpened_eq getPath editor path w Hpath Hv)
    as (extra1 & elements1 & Ho & Hv1 & Hview1).
  match type of Ho with _ = Some ?w => set (w1 := w) in * end.
  destruct (editorClosed_eq getPath editor path w1 Hpath Hne Hv1)
    as (extra2 & elements2 & Hc & _ & Hview2).
  match type of Hc with _ = Some ?w => set (w2 := w) in * end.
  assert (locations w2 = on_entries (closed_entry editor path) (locations w))
    as Hview.
  { rewrite Hview2, Hview1, on_entries_compose. apply on_entries_ext.
    intros location _. apply closed_opened_entry. }
  exists w1, w2. split; [exact Ho|]. split; [exact Hc|]. split; [exact Hview|].
  split; [|split; [|split; [done|split; [done|]]]].
  - intros i u p Hi. rewrite Hview. unfold on_entries.
    rewrite list_lookup_fmap, Hi. done.
  - rewrite <- !length_locations, Hview. unfold on_entries.
    by rewrite length_fmap.
  - intros Hnone. rewrite Hview. rewrite <- (on_entries_id (locations w)) at 2.
    apply on_entries_ext. intros [e p|u p] Hin; cbn [closed_entry]; [|done].
    destruct (Nat.eqb_spec editor e) as [<-|_]; [|done].
    by destruct (Hnone p).
Qed.

Lemma opened_then_closed_witness :
  example_getPath 0 = Some "a.js"%string ∧ "a.js"%string ≠ EmptyString ∧
  valid_refs (store example_closed_world)
             (_elements (nav example_closed_world)) ∧
  ∃ w1 w2,
    editorOpened example_getPath 0 example_closed_world = Some w1 ∧
    editorClosed example_getPath 0 w1 = Some w2 ∧
    locations w2 !! 1 = Some (Some (UriLocation "a.js" (5, 5))) ∧
    _index (nav w2) = 2%Z.
Proof.
  assert (valid_refs (store example_closed_world)
                     (_elements (nav example_closed_world))) as Hv.
  { repeat constructor; simpl; lia. }
  assert ("a.js"%string ≠ EmptyString) as Hne by discriminate.
  split; [reflexivity|]. split; [exact Hne|]. split; [exact Hv|].
  destruct (opened_then_closed example_getPath 0 "a.js" example_closed_world
              eq_refl Hne Hv)
    as (w1 & w2 & Ho & Hc & _ & Huri & _ & Hi & _).
  exists w1, w2. split; [exact Ho|]. split; [exact Hc|].
  split; [by apply Huri|exact Hi].
Defined.

(** * Further properties of the navigation stack *)

(** ** [filter] and the current entry *)

Lemma filter_all_pass_id {A} (f : A → bool) (l : list A) :
  Forall (λ x, f x = true) l → List.filter f l = l.
Proof.
  induction 1 as [|x l Hx _ IH]; [done|]. simpl. by rewrite Hx, IH.
Qed.

Lemma filter_none_pass_nil {A} (f : A → bool) (l : list A) :
  Forall (λ x, f x = true) l → List.filter (λ x, negb (f x)) l = [].
Proof.
  induction 1 as [|x l Hx _ IH]; [done|]. simpl. by rewrite Hx.
Qed.

Lemma filter_same_length {A} (f : A → bool) (l : list A) :
  length (List.filter f l) = length l → Forall (λ x, f x = true) l.
Proof.
  induction l as [|x l IH]; [constructor|]. simpl.
  pose proof (length_filter_le f l) as Hle.
  destruct (f x) eqn:Hx; simpl; intros Hl; [|lia].
  constructor; [done|]. apply IH. lia.
Qed.

Lemma filter_count_split {A} (f : A → bool) (l : list A) :
  length (List.filter f l) + length (List.filter (λ x, negb (f x)) l) =
    length l.
Proof.
  induction l as [|x l IH]; [done|]. simpl. destruct (f x); simpl; lia.
Qed.

Lemma Forall_passes_filter {A} (f : A → bool) (l : list A) :
  Forall (λ x, f x = true) (List.filter f l).
Proof.
  apply Forall_forall. intros x Hin. apply list_elem_of_In in Hin.
  by apply filter_In in Hin as [_ Hx].
Qed.

(** A [filter] that removes nothing is the identity on a well-formed
    stack. *)
Lemma filter_all_pass (predicate : Location → bool) (h : Store)
    (s : NavigationStack) :
  wf_nav s → valid_refs h (_elements s) →
  Forall (λ r, passes predicate h r = true) (_elements s) →
  filter predicate h s = Some s.
Proof.
  intros (Hd & Hi & Hne) Hv Hall. rewrite (filter_eq _ _ _ Hv). f_equal.
  unfold filtered, removed_up_to. rewrite (filter_all_pass_id _ _ Hall).
  assert (Forall (λ r, passes predicate h r = true)
                 (take (Z.to_nat (_index s + 1)) (_elements s))) as Hall'.
  { rewrite Forall_forall in *. intros r Hin. apply Hall.
    apply list_elem_of_lookup in Hin as [i Hin].
    apply lookup_take_Some in Hin as [Hin _]. by eapply list_elem_of_lookup_2. }
  rewrite (filter_none_pass_nil _ _ Hall').
  rewrite decide_True by done. destruct s as [elements index changes].
  cbn [_elements _index _changes length] in *. f_equal.
  destruct elements as [|r l]; simpl in *; [lia|].
  assert (0 ≤ index)%Z by by apply Hne. lia.
Qed.

(** X1.  A [filter] whose predicate every entry passes leaves a well-formed
    stack exactly as it was and publishes nothing. *)
Theorem filter_keeping_all_is_identity (predicate : Location → bool)
    (h : Store) (s : NavigationStack) :
  wf_nav s → valid_refs h (_elements s) →
  Forall (λ r, passes predicate h r = true) (_elements s) →
  filter predicate h s = Some s.
Proof. apply filter_all_pass. Qed.

Lemma filter_keeping_all_is_identity_witness :
  wf_nav example_stack ∧
  valid_refs example_store (_elements example_stack) ∧
  Forall (λ r, passes (not_of_editor 1) example_store r = true)
         (_elements example_stack) ∧
  filter (not_of_editor 1) example_store example_stack = Some example_stack.
Proof.
  assert (wf_nav example_stack) as Hwf.
  { unfold wf_nav, MAX_STACK_DEPTH. simpl. lia. }
  assert (valid_refs example_store (_elements example_stack)) as Hv.
  { repeat constructor; simpl; lia. }
  assert (Forall (λ r, passes (not_of_editor 1) example_store r = true)
                 (_elements example_stack)) as Hall.
  { unfold example_stack. cbn [_elements].
    repeat (apply Forall_cons; split; [reflexivity|]). constructor. }
  split; [exact Hwf|]. split; [exact Hv|]. split; [exact Hall|].
  exact (filter_keeping_all_is_identity _ _ _ Hwf Hv Hall).
Defined.

(** X2.  [filter] is idempotent: on a stack of at most 100 entries that are
    objects, running the same [filter] again on its result changes nothing
    and publishes nothing. *)
Theorem filter_idempotent (predicate : Location → bool) (h : Store)
    (s : NavigationStack) :
  length (_elements s) ≤ MAX_STACK_DEPTH → valid_refs h (_elements s) →
  ∃ s', filter predicate h s = Some s' ∧ filter predicate h s' = Some s'.
Proof.
  intros Hd Hv. exists (filtered predicate h s). split; [by apply filter_eq|].
  apply filter_all_pass.
  - by apply filtered_wf.
  - by apply filtered_valid_refs.
  - apply Forall_passes_filter.
Qed.

Lemma filter_idempotent_witness :
  length (_elements example_stack) ≤ MAX_STACK_DEPTH ∧
  valid_refs example_store (_elements example_stack) ∧
  ∃ s', filter (not_of_editor 0) example_store example_stack = Some s' ∧
        filter (not_of_editor 0) example_store s' = Some s'.
Proof.
  assert (length (_elements example_stack) ≤ MAX_STACK_DEPTH) as Hd.
  { unfold MAX_STACK_DEPTH. simpl. lia. }
  assert (valid_refs example_store (_elements example_stack)) as Hv.
  { repeat constructor; simpl; lia. }
  split; [exact Hd|]. split; [exact Hv|].
  exact (filter_idempotent (not_of_editor 0) _ _ Hd Hv).
Defined.

Lemma filter_up_to_cursor (predicate : Location → bool) (h : Store)
    (s : NavigationStack) :
  List.filter (passes predicate h) (_elements s) =
    List.filter (passes predicate h) (up_to_cursor s) ++
    List.filter (passes predicate h)
                (drop (Z.to_nat (_index s + 1)) (_elements s)).
Proof.
  unfold up_to_cursor. rewrite <- List.filter_app. by rewrite take_drop.
Qed.

Lemma filtered_current (predicate : Location → bool) (h : Store)
    (s : NavigationStack) :
  wf_nav s →
  getCurrent (filtered predicate h s) = surviving_current predicate h s.
Proof.
  intros Hwf. pose proof (length_up_to_cursor s Hwf) as Hlen.
  destruct Hwf as (Hd & Hi & Hne).
  pose proof (filter_count_split (passes predicate h) (up_to_cursor s)) as Hsplit.
  unfold surviving_current, getCurrent, filtered, removed_up_to.
  cbn [_elements _index]. fold (up_to_cursor s).
  rewrite (filter_up_to_cursor predicate h s).
  set (P := List.filter (passes predicate h) (up_to_cursor s)) in *.
  set (Q := List.filter (passes predicate h)
              (drop (Z.to_nat (_index s + 1)) (_elements s))).
  set (F := List.filter (λ r, negb (passes predicate h r)) (up_to_cursor s)) in *.
  rewrite length_app.
  assert (_index s - Z.of_nat (length F) = Z.of_nat (length P) - 1)%Z as ->
    by lia.
  destruct (last P) as [r|] eqn:Hlast.
  - apply last_Some in Hlast as [P' HP]. rewrite HP, length_app. cbn [length].
    replace (Z.min (Z.max (Z.of_nat (length P' + 1) - 1) 0)
                   (Z.of_nat (length P' + 1 + length Q) - 1))
      with (Z.of_nat (length P')) by lia.
    destruct (Z.leb_spec 0 (Z.of_nat (length P'))); [|lia].
    destruct (Z.ltb_spec (Z.of_nat (length P'))
                (Z.of_nat (length P' + 1 + length Q))); [|lia].
    cbn [andb]. rewrite Nat2Z.id, <- app_assoc.
    rewrite lookup_app_r by lia. by rewrite Nat.sub_diag.
  - apply last_None in Hlast. rewrite Hlast. cbn [length app].
    destruct Q as [|q Q']; [done|]. cbn [length head].
    replace (Z.min (Z.max (Z.of_nat 0 - 1) 0) (Z.of_nat (0 + S (length Q')) - 1))
      with 0%Z by lia.
    destruct (Z.ltb_spec 0 (Z.of_nat (0 + S (length Q')))); [|lia]. done.
Qed.

(** X3.  On a well-formed stack whose entries are objects, the entry that is
    current after [filter] is the last surviving entry at or before the old
    cursor, or else the first surviving entry, and there is no current entry
    only when nothing survives.  In particular an entry that was current and
    passes the predicate is still the current one. *)
Theorem filter_current_entry (predicate : Location → bool) (h : Store)
    (s : NavigationStack) :
  wf_nav s → valid_refs h (_elements s) →
  ∃ s', filter predicate h s = Some s' ∧
        getCurrent s' = surviving_current predicate h s ∧
        (getCurrent s' = None → _elements s' = []) ∧
        (∀ r, getCurrent s = Some r → passes predicate h r = true →
              getCurrent s' = Some r).
Proof.
  intros Hwf Hv. exists (filtered predicate h s).
  split; [by apply filter_eq|]. split; [by apply filtered_current|]. split.
  - intros Hnone.
    pose proof (filtered_wf predicate h s (proj1 Hwf)) as (_ & Hi & Hne).
    destruct (decide (_elements (filtered predicate h s) = [])) as [|Hn];
      [done|].
    specialize (Hne Hn).
    destruct (getCurrent_in_range (filtered predicate h s)) as (r' & Hr' & _);
      [lia|congruence].
  - intros r Hcur Hpass. rewrite (filtered_current _ _ _ Hwf).
    apply getCurrent_Some in Hcur as [Hi Hr]. unfold surviving_current, up_to_cursor.
    replace (Z.to_nat (_index s + 1)) with (S (Z.to_nat (_index s))) by lia.
    rewrite (take_S_r _ _ _ Hr), List.filter_app. cbn [List.filter].
    rewrite Hpass. by rewrite last_snoc.
Qed.

Lemma filter_current_entry_witness :
  wf_nav example_stack ∧
  valid_refs example_store (_elements example_stack) ∧
  ∃ s', filter (not_of_editor 0) example_store example_stack = Some s' ∧
        getCurrent example_stack = Some 1 ∧ getCurrent s' = Some 1.
Proof.
  assert (wf_nav example_stack) as Hwf.
  { unfold wf_nav, MAX_STACK_DEPTH. simpl. lia. }
  assert (valid_refs example_store (_elements example_stack)) as Hv.
  { repeat constructor; simpl; lia. }
  split; [exact Hwf|]. split; [exact Hv|].
  destruct (filter_current_entry (not_of_editor 0) _ _ Hwf Hv)
    as (s' & Hf & _ & _ & Hkeep).
  exists s'. split; [exact Hf|]. split; [reflexivity|].
  exact (Hkeep 1 eq_refl eq_refl).
Defined.

(** ** Moving back and forth *)

Lemma getCurrent_set_index (s : NavigationStack) (i : Z) :
  i = _index s → getCurrent (set_index i s) = getCurrent s.
Proof. intros ->. done. Qed.

(** X4.  On a well-formed stack, going back and then forward returns to the
    entry and the cursor the stack started from, and so does going forward
    and then back; the entries are untouched and two changes have been
    published. *)
Theorem back_and_forth (s : NavigationStack) :
  wf_nav s →
  (hasPrevious s = true →
   ∃ r r' s1 s2,
     previous s = Some (Some r, s1) ∧ next s1 = Some (Some r', s2) ∧
     getCurrent s = Some r' ∧ _index s2 = _index s ∧
     _elements s2 = _elements s ∧ _changes s2 = S (S (_changes s))) ∧
  (hasNext s = true →
   ∃ r r' s1 s2,
     next s = Some (Some r, s1) ∧ previous s1 = Some (Some r', s2) ∧
     getCurrent s = Some r' ∧ _index s2 = _index s ∧
     _elements s2 = _elements s ∧ _changes s2 = S (S (_changes s))).
Proof.
  intros Hwf. pose proof Hwf as (Hd & Hi & Hne). split; intros E.
  - destruct (previous_wf_eq s Hwf E) as (r & Hr & Hp).
    set (s1 := _hasChanged (set_index (_index s - 1) s)) in *.
    destruct (previous_wf _ _ _ Hwf Hp) as [Hwf1 _].
    unfold hasPrevious in E. apply Z.ltb_lt in E.
    assert (hasNext s1 = true) as E1.
    { unfold hasNext. apply Z.ltb_lt. simpl. lia. }
    destruct (next_wf_eq s1 Hwf1 E1) as (r' & Hr' & Hn).
    exists r, r', s1. eexists. split; [exact Hp|]. split; [exact Hn|].
    split; [|simpl; split; [lia|done]].
    rewrite <- Hr'. symmetry. unfold getCurrent. simpl.
    by replace (_index s - 1 + 1)%Z with (_index s) by lia.
  - destruct (next_wf_eq s Hwf E) as (r & Hr & Hn).
    set (s1 := _hasChanged (set_index (_index s + 1) s)) in *.
    destruct (next_wf _ _ _ Hwf Hn) as [Hwf1 _].
    unfold hasNext in E. apply Z.ltb_lt in E.
    assert (0 ≤ _index s)%Z as Hpos.
    { apply Hne. intros Hnil. rewrite Hnil in E. simpl in E. lia. }
    assert (hasPrevious s1 = true) as E1.
    { unfold hasPrevious. apply Z.ltb_lt. simpl. lia. }
    destruct (previous_wf_eq s1 Hwf1 E1) as (r' & Hr' & Hp).
    exists r, r', s1. eexists. split; [exact Hn|]. split; [exact Hp|].
    split; [|simpl; split; [lia|done]].
    rewrite <- Hr'. symmetry. unfold getCurrent. simpl.
    by replace (_index s + 1 - 1)%Z with (_index s) by lia.
Qed.

Lemma back_and_forth_witness :
  wf_nav example_stack ∧ hasPrevious example_stack = true ∧
  ∃ r r' s1 s2,
    previous example_stack = Some (Some r, s1) ∧
    next s1 = Some (Some r', s2) ∧
    getCurrent example_stack = Some r' ∧ _index s2 = _index example_stack.
Proof.
  assert (wf_nav example_stack) as Hwf.
  { unfold wf_nav, MAX_STACK_DEPTH. simpl. lia. }
  split; [exact Hwf|]. split; [reflexivity|].
  destruct (proj1 (back_and_forth example_stack Hwf) eq_refl)
    as (r & r' & s1 & s2 & Hp & Hn & Hc & Hi & _).
  by exists r, r', s1, s2.
Defined.

Lemma length_pushed (newTop : Ref) (s : NavigationStack) :
  wf_nav s →
  ∃ d, (d = 0 ∨ d = 1 ∧ _index s = 99%Z) ∧
       _elements (pushed newTop s) = drop d (up_to_cursor s ++ [newTop]) ∧
       length (_elements (pushed newTop s)) = Z.to_nat (_index s + 1) + 1 - d.
Proof.
  intros Hwf. pose proof (length_up_to_cursor s Hwf) as Hlen.
  destruct Hwf as (Hd & Hi & _). unfold pushed, evict_oldest. cbn [_elements].
  rewrite length_app, Hlen. cbn [length]. unfold MAX_STACK_DEPTH in *.
  destruct (Nat.ltb_spec 100 (Z.to_nat (_index s + 1) + 1)).
  - exists 1. split; [right; split; [done|lia]|]. split; [done|].
    rewrite length_drop, length_app, Hlen. simpl. lia.
  - exists 0. split; [by left|]. split; [done|].
    rewrite length_app, Hlen. simpl. lia.
Qed.

Lemma getCurrent_pushed (newTop : Ref) (s : NavigationStack) :
  wf_nav s → getCurrent (pushed newTop s) = Some newTop.
Proof.
  intros Hwf. pose proof (pushed_wf newTop s Hwf) as (_ & Hi & _).
  destruct (getCurrent_in_range (pushed newTop s)) as (r & Hr & Hl).
  { pose proof (evict_oldest_nonempty (up_to_cursor s) newTop) as Hne.
    unfold pushed in *. cbn [_elements _index] in *.
    destruct (evict_oldest (up_to_cursor s ++ [newTop])); [done|].
    simpl. lia. }
  rewrite Hr. f_equal.
  pose proof (last_evict_oldest (up_to_cursor s) newTop) as Hlast.
  rewrite last_lookup in Hlast. unfold pushed in Hl. cbn [_elements _index] in Hl.
  replace (Z.to_nat
             (Z.of_nat (length (evict_oldest (up_to_cursor s ++ [newTop]))) - 1))
    with (pred (length (evict_oldest (up_to_cursor s ++ [newTop])))) in Hl by lia.
  congruence.
Qed.

(** X5.  On a well-formed stack with a current entry, [push] followed by
    [previous()] returns the entry that was current before the [push], also
    when the [push] evicted the oldest entry.  On an empty stack [previous()]
    after [push] returns [null]. *)
Theorem push_then_previous (newTop : Ref) (s : NavigationStack) :
  wf_nav s →
  ∃ s1, push newTop s = Some s1 ∧
        (∀ r, getCurrent s = Some r →
              ∃ s2, previous s1 = Some (Some r, s2) ∧
                    _elements s2 = _elements s1) ∧
        (isEmpty s = true → previous s1 = Some (None, s1)).
Proof.
  intros Hwf. exists (pushed newTop s). split; [by apply push_wf_eq|].
  pose proof (pushed_wf newTop s Hwf) as Hwf1.
  destruct (length_pushed newTop s Hwf) as (d & Hd & Hel & Hlen).
  pose proof (length_up_to_cursor s Hwf) as Hup.
  assert (_index (pushed newTop s) =
          Z.of_nat (length (_elements (pushed newTop s))) - 1)%Z as Hidx by done.
  split.
  - intros r Hcur. apply getCurrent_Some in Hcur as [Hi Hr].
    assert (hasPrevious (pushed newTop s) = true) as E.
    { unfold hasPrevious. apply Z.ltb_lt. rewrite Hidx, Hlen. lia. }
    destruct (previous_wf_eq _ Hwf1 E) as (r' & Hr' & Hp).
    exists (_hasChanged
              (set_index (_index (pushed newTop s) - 1) (pushed newTop s))).
    split; [|done]. rewrite Hp. do 3 f_equal.
    apply getCurrent_Some in Hr' as [_ Hr']. cbn [set_index _elements _index] in Hr'.
    rewrite Hidx, Hlen, Hel, lookup_drop in Hr'.
    replace (d + Z.to_nat (Z.of_nat (Z.to_nat (_index s + 1) + 1 - d) - 1 - 1))
      with (Z.to_nat (_index s)) in Hr' by lia.
    rewrite lookup_app_l in Hr' by lia.
    unfold up_to_cursor in Hr'. rewrite lookup_take_lt in Hr' by lia.
    congruence.
  - intros He. unfold isEmpty in He. apply Nat.eqb_eq in He.
    destruct Hwf as (_ & Hi & _).
    unfold previous, hasPrevious. rewrite Hidx, Hlen.
    destruct (Z.ltb_spec 0 (Z.of_nat (Z.to_nat (_index s + 1) + 1 - d) - 1));
      [lia|done].
Qed.

Lemma push_then_previous_witness :
  wf_nav example_stack ∧ getCurrent example_stack = Some 1 ∧
  ∃ s1 s2, push 2 example_stack = Some s1 ∧
           previous s1 = Some (Some 1, s2).
Proof.
  assert (wf_nav example_stack) as Hwf.
  { unfold wf_nav, MAX_STACK_DEPTH. simpl. lia. }
  split; [exact Hwf|]. split; [reflexivity|].
  destruct (push_then_previous 2 example_stack Hwf) as (s1 & Hp & Hback & _).
  destruct (Hback 1 eq_refl) as (s2 & Hprev & _).
  by exists s1, s2.
Defined.

(** ** The current entry *)

(** X6.  In a well-formed state [getCurrent()] throws exactly when the
    stack is empty, where [getCurrentEditor()] returns [null]; on a stack
    with entries both return: [getCurrent()] an entry of the array, and
    [getCurrentEditor()] that entry's editor, or [null] for a uri
    location. *)
Theorem current_entry_defined (w : World) :
  wf w →
  (hasCurrent (nav w) = false →
   getCurrent (nav w) = None ∧
   getCurrentEditor (store w) (nav w) = Some None) ∧
  (hasCurrent (nav w) = true →
   ∃ r location,
     getCurrent (nav w) = Some r ∧ r ∈ _elements (nav w) ∧
     store w !! r = Some location ∧
     getCurrentEditor (store w) (nav w) = Some (editor_field location)).
Proof.
  intros [(Hd & Hi & Hne) Hv]. split; intros Hc.
  - unfold getCurrentEditor. rewrite Hc. split; [|done].
    unfold hasCurrent, isEmpty in Hc. apply negb_false_iff, Nat.eqb_eq in Hc.
    unfold getCurrent. rewrite Hc.
    destruct (Z.ltb_spec (_index (nav w)) (Z.of_nat 0)); [|by rewrite andb_false_r].
    destruct (Z.leb_spec 0 (_index (nav w))); [lia|done].
  - unfold getCurrentEditor. rewrite Hc. cbn [negb].
    apply hasCurrent_true in Hc. specialize (Hne Hc).
    destruct (getCurrent_in_range (nav w)) as (r & Hr & Hl); [lia|].
    assert (r ∈ _elements (nav w)) as Hin by by eapply list_elem_of_lookup_2.
    unfold valid_refs in Hv. rewrite Forall_forall in Hv.
    destruct (lookup_lt_is_Some_2 (store w) r (Hv r Hin)) as [location Hloc].
    exists r, location. rewrite Hr. cbn [mbind option_bind]. rewrite Hloc.
    split; [done|]. split; [done|]. split; [done|]. by destruct location.
Qed.

Lemma current_entry_defined_witness :
  wf example_open_world ∧
  getCurrent (nav example_open_world) = Some 0 ∧
  getCurrentEditor (store example_open_world) (nav example_open_world) =
    Some (Some 0).
Proof.
  assert (wf example_open_world) as Hwf.
  { split; [unfold wf_nav, MAX_STACK_DEPTH; simpl; lia|].
    repeat constructor; simpl; lia. }
  split; [exact Hwf|].
  destruct (proj2 (current_entry_defined example_open_world Hwf) eq_refl)
    as (r & location & Hr & _ & Hloc & He).
  injection Hr as <-. injection Hloc as <-. by split.
Defined.

(** ** [attemptUpdate] within one editor *)

Lemma attemptUpdate_match (newTop : Ref) (editor : TextEditor) (p : Point)
    (w : World) :
  getCurrentEditor (store w) (nav w) = Some (Some editor) →
  store w !! newTop = Some (EditorLocation editor p) →
  ∃ current,
    getCurrent (nav w) = Some current ∧
    attemptUpdate newTop w =
      Some {| store := <[current := EditorLocation editor p]> (store w);
              nav := nav w |}.
Proof.
  intros Hc Hobj.
  destruct (getCurrentEditor_Some _ _ _ Hc) as (current & q & Hcur & Hq).
  exists current. split; [done|].
  unfold attemptUpdate. rewrite Hc. cbn [mbind option_bind].
  rewrite Hobj. cbn [mbind option_bind editor_field same_editor].
  rewrite Nat.eqb_refl, Hcur. cbn [mbind option_bind].
  rewrite Hq. done.
Qed.

Lemma attemptUpdate_cases (newTop : Ref) (w w' : World) :
  wf_nav (nav w) → attemptUpdate newTop w = Some w' →
  (nav w' = nav w ∧ length (store w') = length (store w) ∧
   ∃ c obj, getCurrentEditor (store w) (nav w) = Some (Some c) ∧
            store w !! newTop = Some obj ∧ editor_field obj = Some c ∧
            ∃ current, getCurrent (nav w) = Some current ∧
              store w' = <[current := EditorLocation c (bufferPosition obj)]>
                           (store w)) ∨
  (nav w' = pushed newTop (nav w) ∧ store w' = store w).
Proof.
  intros Hs. unfold attemptUpdate. rewrite (push_wf_eq newTop _ Hs).
  destruct (getCurrentEditor (store w) (nav w)) as [c|] eqn:Hc; [|done].
  cbn [mbind option_bind].
  destruct (store w !! newTop) as [obj|] eqn:Hobj; [|done].
  cbn [mbind option_bind].
  destruct (same_editor c (editor_field obj)) eqn:Hsame.
  - destruct c as [c|]; [|done].
    destruct (editor_field obj) as [e|] eqn:He; [|done].
    apply Nat.eqb_eq in Hsame as <-.
    destruct (getCurrentEditor_Some _ _ _ Hc) as (current & q & Hcur & Hq).
    rewrite Hcur. cbn [mbind option_bind]. rewrite Hq. cbn [mbind option_bind].
    intros [= <-]. left. cbn [nav store]. split; [done|].
    split; [by rewrite length_insert|].
    exists c, obj. split; [done|]. split; [done|]. split; [done|].
    by exists current.
  - intros [= <-]. by right.
Qed.

(** X7.  On a well-formed state, after [attemptUpdate] with a location of
    some editor, that editor is the current one, and a further
    [attemptUpdate] with any location of the same editor adds no entry,
    moves no cursor and publishes nothing. *)
Theorem attemptUpdate_same_editor_adds_nothing (w : World)
    (newTop1 newTop2 : Ref) (editor : TextEditor) (p1 p2 : Point) :
  wf w →
  store w !! newTop1 = Some (EditorLocation editor p1) →
  store w !! newTop2 = Some (EditorLocation editor p2) →
  ∃ w1 w2,
    attemptUpdate newTop1 w = Some w1 ∧
    getCurrentEditor (store w1) (nav w1) = Some (Some editor) ∧
    attemptUpdate newTop2 w1 = Some w2 ∧
    nav w2 = nav w1.
Proof.
  intros Hwf H1 H2. pose proof Hwf as [Hs Hv].
  destruct (attemptUpdate_wf newTop1 w Hwf) as (w1 & Ha & Hwf1 & Hl).
  { by eapply lookup_lt_Some. }
  assert (getCurrentEditor (store w1) (nav w1) = Some (Some editor) ∧
          ∃ q, store w1 !! newTop2 = Some (EditorLocation editor q))
    as [Hc1 [q Hq]].
  { destruct (attemptUpdate_cases _ _ _ Hs Ha)
      as [(Hnav & _ & c & obj & Hc & Hobj & He & current & Hcur & Hst)
         |[Hnav Hst]].
    - rewrite H1 in Hobj. injection Hobj as <-. injection He as <-.
      cbn [bufferPosition] in Hst.
      destruct (getCurrentEditor_Some _ _ _ Hc) as (current' & q & Hcur' & Hq).
      assert (current' = current) as -> by congruence.
      assert (current < length (store w)) as Hlt by by eapply lookup_lt_Some.
      split.
      + unfold getCurrentEditor in *. rewrite Hnav.
        destruct (negb (hasCurrent (nav w))); [done|].
        rewrite Hcur. cbn [mbind option_bind]. rewrite Hst.
        by rewrite list_lookup_insert_eq.
      + rewrite Hst. destruct (decide (current = newTop2)) as [<-|Hne].
        * exists p1. by rewrite list_lookup_insert_eq.
        * exists p2. by rewrite list_lookup_insert_ne.
    - rewrite Hst. split; [|by exists p2].
      unfold getCurrentEditor. rewrite Hnav.
      assert (hasCurrent (pushed newTop1 (nav w)) = true) as ->.
      { apply hasCurrent_true. apply evict_oldest_nonempty. }
      cbn [negb]. rewrite (getCurrent_pushed _ _ Hs). cbn [mbind option_bind].
      by rewrite H1. }
  destruct (attemptUpdate_match newTop2 editor q w1 Hc1 Hq) as (current & _ & Hu).
  exists w1. eexists. split; [exact Ha|]. split; [exact Hc1|].
  split; [exact Hu|done].
Qed.

Lemma attemptUpdate_same_editor_adds_nothing_witness :
  wf example_open_world ∧
  store example_open_world !! 0 = Some (EditorLocation 0 (1, 1)) ∧
  store example_open_world !! 2 = Some (EditorLocation 0 (3, 3)) ∧
  ∃ w1 w2,
    attemptUpdate 0 example_open_world = Some w1 ∧
    attemptUpdate 2 w1 = Some w2 ∧ nav w2 = nav w1.
Proof.
  assert (wf example_open_world) as Hwf.
  { split; [unfold wf_nav, MAX_STACK_DEPTH; simpl; lia|].
    repeat constructor; simpl; lia. }
  split; [exact Hwf|]. split; [reflexivity|]. split; [reflexivity|].
  destruct (attemptUpdate_same_editor_adds_nothing example_open_world 0 2 0
              (1, 1) (3, 3) Hwf eq_refl eq_refl)
    as (w1 & w2 & Ha & _ & Hb & Hnav).
  by exists w1, w2.
Defined.

(** ** Changes are never silent *)

Lemma previous_cases (s s' : NavigationStack) (result : option Ref) :
  previous s = Some (result, s') →
  s' = s ∨ s' = _hasChanged (set_index (_index s - 1) s).
Proof.
  unfold previous. destruct (hasPrevious s).
  - destruct (getCurrent _); [|done]. intros [= _ <-]. by right.
  - intros [= _ <-]. by left.
Qed.

Lemma next_cases (s s' : NavigationStack) (result : option Ref) :
  next s = Some (result, s') →
  s' = s ∨ s' = _hasChanged (set_index (_index s + 1) s).
Proof.
  unfold next. destruct (hasNext s); cbn [negb].
  - destruct (getCurrent _); [|done]. intros [= _ <-]. by right.
  - intros [= _ <-]. by left.
Qed.

Lemma filter_quiet (predicate : Location → bool) (h : Store)
    (s s' : NavigationStack) :
  wf_nav s → valid_refs h (_elements s) → filter predicate h s = Some s' →
  _changes s ≤ _changes s' ∧ (_changes s' = _changes s → s' = s).
Proof.
  intros Hwf Hv Hf. pose proof Hf as Hf'.
  rewrite (filter_eq _ _ _ Hv) in Hf'. injection Hf' as <-.
  assert (_changes (filtered predicate h s) =
          if decide (length (List.filter (passes predicate h) (_elements s)) =
                     length (_elements s))
          then _changes s else S (_changes s)) as -> by done.
  destruct (decide (length (List.filter (passes predicate h) (_elements s)) =
                    length (_elements s))) as [Heq|Hne];
    [|split; [lia|intros; lia]].
  split; [lia|]. intros _.
  apply filter_same_length in Heq.
  pose proof (filter_all_pass _ _ _ Hwf Hv Heq) as Hid. congruence.
Qed.

Section Quiet.

Variable getPath : TextEditor → option NuclideUri.

Lemma editorOpened_shape (editor : TextEditor) (w w' : World) :
  editorOpened getPath editor w = Some w' →
  _index (nav w') = _index (nav w) ∧ _changes (nav w') = _changes (nav w) ∧
  length (_elements (nav w')) = length (_elements (nav w)).
Proof.
  unfold editorOpened. destruct (getPath editor) as [path|]; [|by intros [= <-]].
  match goal with |- context [forEach_replace ?c ?h ?l] =>
    destruct (forEach_replace c h l) as [[h' elements']|] eqn:Heq
  end; [|done].
  intros [= <-]. apply forEach_replace_length in Heq. done.
Qed.

Lemma editorClosed_cases (editor : TextEditor) (w w' : World) :
  editorClosed getPath editor w = Some w' →
  (_index (nav w') = _index (nav w) ∧ _changes (nav w') = _changes (nav w) ∧
   length (_elements (nav w')) = length (_elements (nav w))) ∨
  filter (not_of_editor editor) (store w) (nav w) = Some (nav w').
Proof.
  unfold editorClosed.
  destruct (getPath editor) as [path|];
    [destruct (path =? EmptyString)%string|].
  - destruct (filter _ _ _); [|done]. intros [= <-]. by right.
  - match goal with |- context [forEach_replace ?c ?h ?l] =>
      destruct (forEach_replace c h l) as [[h' elements']|] eqn:Heq
    end; [|done].
    intros [= <-]. apply forEach_replace_length in Heq. by left.
  - destruct (filter _ _ _); [|done]. intros [= <-]. by right.
Qed.

Lemma run_op_quiet (op : Op) (w w' : World) :
  wf w → run_op getPath op w = Some w' →
  _changes (nav w) ≤ _changes (nav w') ∧
  (_changes (nav w') = _changes (nav w) →
   _index (nav w') = _index (nav w) ∧
   length (_elements (nav w')) = length (_elements (nav w))).
Proof.
  intros [Hs Hv].
  destruct op as [newTop|newTop| | |editor|editor|predicate]; cbn [run_op].
  - rewrite (push_wf_eq newTop _ Hs). intros [= <-]. simpl. lia.
  - intros Ha.
    destruct (attemptUpdate_cases _ _ _ Hs Ha) as [(-> & _)|[-> _]];
      [done|simpl; lia].
  - destruct (previous (nav w)) as [[result s']|] eqn:Hp; [|done].
    intros [= <-]. cbn [nav].
    destruct (previous_cases _ _ _ Hp) as [->| ->]; [done|simpl; lia].
  - destruct (next (nav w)) as [[result s']|] eqn:Hp; [|done].
    intros [= <-]. cbn [nav].
    destruct (next_cases _ _ _ Hp) as [->| ->]; [done|simpl; lia].
  - intros Ho. apply editorOpened_shape in Ho as (Hi & Hc & Hl).
    split; [lia|done].
  - intros Hc. destruct (editorClosed_cases _ _ _ Hc) as [(Hi & Hch & Hl)|Hf].
    + split; [lia|done].
    + destruct (filter_quiet _ _ _ _ Hs Hv Hf) as [Hle Heq].
      split; [done|]. intros Hsame. by rewrite (Heq Hsame).
  - destruct (filter predicate (store w) (nav w)) as [s'|] eqn:Hf; [|done].
    intros [= <-]. cbn [nav].
    destruct (filter_quiet _ _ _ _ Hs Hv Hf) as [Hle Heq].
    split; [done|]. intros Hsame. by rewrite (Heq Hsame).
Qed.

Lemma run_quiet (h : Store) (ops : list Op) :
  Forall (op_ok h) ops →
  ∀ w w', wf w → length h ≤ length (store w) →
          run getPath ops w = Some w' →
          _changes (nav w) ≤ _changes (nav w') ∧
          (_changes (nav w') = _changes (nav w) →
           _index (nav w') = _index (nav w) ∧
           length (_elements (nav w')) = length (_elements (nav w))).
Proof.
  induction 1 as [|op ops Hop _ IH]; intros w w' Hwf Hl Hrun.
  - by injection Hrun as <-.
  - cbn [run] in Hrun.
    destruct (run_op_wf getPath op w Hwf) as (w1 & Hop1 & Hwf1 & Hl1).
    { by eapply op_ok_mono. }
    rewrite Hop1 in Hrun. cbn [mbind option_bind] in Hrun.
    destruct (run_op_quiet op w w1 Hwf Hop1) as [Hle1 Hq1].
    destruct (IH w1 w' Hwf1 ltac:(lia) Hrun) as [Hle2 Hq2].
    split; [lia|]. intros Hsame.
    destruct Hq1 as [Hi1 Hn1]; [lia|]. destruct Hq2 as [Hi2 Hn2]; [lia|].
    split; congruence.
Qed.

End Quiet.

(** X8.  Over any sequence of calls on a well-formed state, with locations
    the callers hold as arguments, the number of published changes never
    goes down, and if nothing was published then the cursor and the depth
    of the stack are what they were: no call moves the cursor or changes the
    depth without publishing. *)
Theorem no_silent_change (getPath : TextEditor → option NuclideUri)
    (ops : list Op) (w w' : World) :
  wf w → Forall (op_ok (store w)) ops → run getPath ops w = Some w' →
  _changes (nav w) ≤ _changes (nav w') ∧
  (_changes (nav w') = _changes (nav w) →
   _index (nav w') = _index (nav w) ∧
   length (_elements (nav w')) = length (_elements (nav w))).
Proof.
  intros Hwf Hok Hrun. by eapply (run_quiet getPath (store w) ops Hok w w').
Qed.

Lemma no_silent_change_witness :
  wf example_closed_world ∧
  Forall (op_ok (store example_closed_world))
         [OpNext; OpEditorOpened 0; OpAttemptUpdate 0; OpFilter (λ _, true)] ∧
  ∃ w', run example_getPath
            [OpNext; OpEditorOpened 0; OpAttemptUpdate 0; OpFilter (λ _, true)]
            example_closed_world = Some w' ∧
        _changes (nav w') = 3 ∧ _index (nav w') = 2%Z ∧
        length (_elements (nav w')) = 3.
Proof.
  assert (wf example_closed_world) as Hwf.
  { split; [unfold wf_nav, MAX_STACK_DEPTH; simpl; lia|].
    repeat constructor; simpl; lia. }
  assert (Forall (op_ok (store example_closed_world))
            [OpNext; OpEditorOpened 0; OpAttemptUpdate 0; OpFilter (λ _, true)])
    as Hok.
  { repeat constructor; simpl; lia. }
  split; [exact Hwf|]. split; [exact Hok|].
  eexists. split; [reflexivity|].
  destruct (no_silent_change example_getPath _ _ _ Hwf Hok eq_refl) as [_ Hq].
  split; [reflexivity|]. exact (Hq eq_refl).
Defined.

(** ** Closing an editor *)

Lemma locations_filtered (predicate : Location → bool)
    (shown : option Location → bool) (h : Store) (elements : list Ref) :
  (∀ location, shown (Some location) = predicate location) →
  valid_refs h elements →
  (λ r, h !! r) <$> List.filter (passes predicate h) elements =
    List.filter shown ((λ r, h !! r) <$> elements).
Proof.
  intros Hshown. induction 1 as [|r rest Hr _ IH]; [done|].
  destruct (lookup_lt_is_Some_2 h r Hr) as [location Hloc].
  assert (passes predicate h r = shown (h !! r)) as Hp.
  { unfold passes. by rewrite Hloc, Hshown. }
  cbn [List.filter]. rewrite Hp, (fmap_cons _ r rest). cbn [List.filter].
  destruct (shown (h !! r)); [|exact IH]. by rewrite fmap_cons, IH.
Qed.

Lemma shown_not_of_editor (editor : TextEditor) (location : Location) :
  negb (entry_of_editor editor (Some location)) = not_of_editor editor location.
Proof. by destruct location. Qed.

(** X9.  Closing an editor that has no path, or the empty path, on a stack
    whose entries are objects: the call returns, no object is modified, and
    the entries shown are the old ones without the open locations of that
    editor, in their order.  One change is published when an entry was
    removed and none otherwise; on a well-formed stack without entries of
    the editor the state is the same. *)
Theorem editorClosed_unsaved_removes
    (getPath : TextEditor → option NuclideUri) (editor : TextEditor)
    (w : World) :
  getPath editor = None ∨ getPath editor = Some EmptyString →
  valid_refs (store w) (_elements (nav w)) →
  ∃ w', editorClosed getPath editor w = Some w' ∧
        store w' = store w ∧
        locations w' =
          List.filter (λ entry, negb (entry_of_editor editor entry))
                      (locations w) ∧
        (length (locations w') ≠ length (locations w) →
         _changes (nav w') = S (_changes (nav w))) ∧
        (length (locations w') = length (locations w) →
         _changes (nav w') = _changes (nav w)) ∧
        (wf_nav (nav w) →
         (∀ p, Some (EditorLocation editor p) ∉ locations w) → w' = w).
Proof.
  intros Hp Hv. eexists. split; [by apply editorClosed_unsaved|].
  cbn [store nav]. split; [done|].
  assert (locations {| store := store w;
                       nav := filtered (not_of_editor editor) (store w) (nav w) |} =
          List.filter (λ entry, negb (entry_of_editor editor entry))
                      (locations w)) as Hview.
  { unfold locations. cbn [store nav filtered _elements].
    apply locations_filtered; [|done]. apply shown_not_of_editor. }
  split; [exact Hview|]. rewrite !length_locations. cbn [nav].
  unfold filtered at 2 4. cbn [_changes].
  split; [|split].
  - intros Hne. by rewrite decide_False.
  - intros Heq. by rewrite decide_True.
  - intros Hwf Hnone. destruct w as [h s]. cbn [store nav] in *. f_equal.
    assert (filter (not_of_editor editor) h s = Some s) as Hid.
    { apply filter_all_pass; [done..|].
      unfold valid_refs in Hv. rewrite Forall_forall in *. intros r Hin.
      destruct (lookup_lt_is_Some_2 h r (Hv r Hin)) as [location Hloc].
      unfold passes. rewrite Hloc. destruct location as [e p|u p]; [|done].
      simpl. destruct (Nat.eqb_spec editor e) as [<-|_]; [|done].
      destruct (Hnone p). unfold locations. cbn [store nav].
      apply list_elem_of_fmap. exists r. by rewrite Hloc. }
    rewrite (filter_eq _ _ _ Hv) in Hid. by injection Hid.
Qed.

Lemma editorClosed_unsaved_removes_witness :
  (example_getPath 2 = None ∨ example_getPath 2 = Some EmptyString) ∧
  valid_refs (store {| store := example_store; nav := example_stack |})
             (_elements example_stack) ∧
  ∃ w', editorClosed example_getPath 2
          {| store := example_store; nav := example_stack |} = Some w' ∧
        locations w' =
          [Some (EditorLocation 0 (1, 1)); Some (EditorLocation 3 (2, 2))].
Proof.
  assert (valid_refs (store {| store := example_store; nav := example_stack |})
                     (_elements example_stack)) as Hv.
  { repeat constructor; simpl; lia. }
  split; [by left|]. split; [exact Hv|].
  destruct (editorClosed_unsaved_removes example_getPath 2
              {| store := example_store; nav := example_stack |}
              (or_introl eq_refl) Hv)
    as (w' & Hc & _ & Hview & _).
  exists w'. split; [exact Hc|]. by rewrite Hview.
Defined.

(** X10.  Closing an editor that has a non-empty path, on a stack whose
    entries are objects: the call returns; every open location of that
    editor is now a uri location with the editor's path and the same
    position, and every other entry is as it was, each at its index; the
    depth, the cursor and the number of changes published are the same; and
    no object that existed before is modified. *)
Theorem editorClosed_saved_converts
    (getPath : TextEditor → option NuclideUri) (editor : TextEditor)
    (path : NuclideUri) (w : World) :
  getPath editor = Some path → path ≠ EmptyString →
  valid_refs (store w) (_elements (nav w)) →
  ∃ w', editorClosed getPath editor w = Some w' ∧
        locations w' = on_entries (closed_entry editor path) (locations w) ∧
        length (_elements (nav w')) = length (_elements (nav w)) ∧
        _index (nav w') = _index (nav w) ∧
        _changes (nav w') = _changes (nav w) ∧
        (∀ r location,
           store w !! r = Some location → store w' !! r = Some location).
Proof.
  intros Hpath Hne Hv.
  destruct (editorClosed_eq getPath editor path w Hpath Hne Hv)
    as (extra & elements' & Heq & _ & Hview).
  eexists. split; [exact Heq|]. split; [exact Hview|].
  split; [|split; [done|split; [done|]]].
  - rewrite <- !length_locations, Hview. unfold on_entries.
    by rewrite length_fmap.
  - intros r location Hr. cbn [store]. by apply lookup_app_l_Some.
Qed.

Lemma editorClosed_saved_converts_witness :
  example_getPath 0 = Some "a.js"%string ∧ "a.js"%string ≠ EmptyString ∧
  valid_refs (store example_open_world) (_elements (nav example_open_world)) ∧
  ∃ w', editorClosed example_getPath 0 example_open_world = Some w' ∧
        locations w' = [Some (UriLocation "a.js" (1, 1))] ∧
        _index (nav w') = 0%Z ∧ _changes (nav w') = 1.
Proof.
  assert (valid_refs (store example_open_world)
                     (_elements (nav example_open_world))) as Hv.
  { repeat constructor; simpl; lia. }
  assert ("a.js"%string ≠ EmptyString) as Hne by discriminate.
  split; [reflexivity|]. split; [exact Hne|]. split; [exact Hv|].
  destruct (editorClosed_saved_converts example_getPath 0 "a.js"
              example_open_world
              eq_refl Hne Hv)
    as (w' & Hc & Hview & _ & Hi & Hch & _).
  exists w'. split; [exact Hc|]. split; [by rewrite Hview|]. by split.
Defined.

(** X11.  Whatever its path, once an editor has been closed no entry of the
    stack refers to it: on a stack whose entries are objects
    [editorClosed] returns, and no entry shown afterwards is an open
    location of that editor. *)
Theorem editorClosed_forgets_editor
    (getPath : TextEditor → option NuclideUri) (editor : TextEditor)
    (w : World) :
  valid_refs (store w) (_elements (nav w)) →
  ∃ w', editorClosed getPath editor w = Some w' ∧
        ∀ p, Some (EditorLocation editor p) ∉ locations w'.
Proof.
  intros Hv.
  assert (∀ h s p,
            valid_refs h (_elements s) →
            Some (EditorLocation editor p) ∉
              locations {| store := h;
                           nav := filtered (not_of_editor editor) h s |})
    as Hfiltered.
  { intros h s p Hv' Hin. unfold locations in Hin.
    cbn [store nav filtered _elements] in Hin.
    rewrite (locations_filtered _ (λ entry, negb (entry_of_editor editor entry)))
      in Hin; [|apply shown_not_of_editor|done].
    apply list_elem_of_In, filter_In in Hin as [_ Hshown].
    simpl in Hshown. by rewrite Nat.eqb_refl in Hshown. }
  destruct (getPath editor) as [path|] eqn:Hpath;
    [destruct (decide (path = EmptyString)) as [->|Hne]|].
  - eexists. split; [by apply editorClosed_unsaved; auto|]. intros p.
    by apply Hfiltered.
  - destruct (editorClosed_eq getPath editor path w Hpath Hne Hv)
      as (extra & elements' & Heq & _ & Hview).
    eexists. split; [exact Heq|]. intros p Hin. rewrite Hview in Hin.
    unfold on_entries in Hin. apply list_elem_of_fmap in Hin as (entry & He & _).
    destruct entry as [[e q|u q]|]; cbn [fmap option_fmap option_map closed_entry]
      in He; [|done|done].
    destruct (Nat.eqb_spec editor e) as [<-|Hdiff]; [done|].
    injection He as <- _. done.
  - eexists. split; [by apply editorClosed_unsaved; auto|]. intros p.
    by apply Hfiltered.
Qed.

Lemma editorClosed_forgets_editor_witness :
  valid_refs (store example_open_world) (_elements (nav example_open_world)) ∧
  ∃ w', editorClosed example_getPath 0 example_open_world = Some w' ∧
        Some (EditorLocation 0 (1, 1)) ∉ locations w'.
Proof.
  assert (valid_refs (store example_open_world)
                     (_elements (nav example_open_world))) as Hv.
  { repeat constructor; simpl; lia. }
  split; [exact Hv|].
  destruct (editorClosed_forgets_editor example_getPath 0 example_open_world Hv)
    as (w' & Hc & Hnone).
  exists w'. split; [exact Hc|]. apply Hnone.
Defined.

(** X12.  History follows the file.  When an editor with a non-empty path
    is closed and an editor with the same path is opened, on a stack whose
    entries are objects, both calls return and every entry that was an open
    location of the closed editor is an open location of the opened editor,
    at the same index and position; the depth, the cursor and the number of
    changes published are the same. *)
Theorem closed_then_opened (getPath : TextEditor → option NuclideUri)
    (closed opened : TextEditor) (path : NuclideUri) (w : World) :
  getPath closed = Some path → path ≠ EmptyString →
  getPath opened = Some path →
  valid_refs (store w) (_elements (nav w)) →
  ∃ w1 w2,
    editorClosed getPath closed w = Some w1 ∧
    editorOpened getPath opened w1 = Some w2 ∧
    locations w2 =
      on_entries (opened_entry opened path)
                 (on_entries (closed_entry closed path) (locations w)) ∧
    (∀ i p,
       locations w !! i = Some (Some (EditorLocation closed p)) →
       locations w2 !! i = Some (Some (EditorLocation opened p))) ∧
    length (_elements (nav w2)) = length (_elements (nav w)) ∧
    _index (nav w2) = _index (nav w) ∧
    _changes (nav w2) = _changes (nav w).
Proof.
  intros Hc Hne Ho Hv.
  destruct (editorClosed_eq getPath closed path w Hc Hne Hv)
    as (extra1 & elements1 & Heq1 & Hv1 & Hview1).
  match type of Heq1 with _ = Some ?w => set (w1 := w) in * end.
  destruct (editorOpened_eq getPath opened path w1 Ho Hv1)
    as (extra2 & elements2 & Heq2 & _ & Hview2).
  match type of Heq2 with _ = Some ?w => set (w2 := w) in * end.
  assert (locations w2 =
          on_entries (opened_entry opened path)
                     (on_entries (closed_entry closed path) (locations w)))
    as Hview by by rewrite Hview2, Hview1.
  exists w1, w2. split; [exact Heq1|]. split; [exact Heq2|].
  split; [exact Hview|]. split; [|split; [|done]].
  - intros i p Hi. rewrite Hview. unfold on_entries.
    rewrite !list_lookup_fmap, Hi. cbn [fmap option_fmap option_map closed_entry].
    rewrite Nat.eqb_refl. cbn [opened_entry]. by rewrite String.eqb_refl.
  - rewrite <- !length_locations, Hview. unfold on_entries.
    by rewrite !length_fmap.
Qed.

Lemma closed_then_opened_witness :
  example_getPath 0 = Some "a.js"%string ∧ "a.js"%string ≠ EmptyString ∧
  valid_refs (store example_open_world) (_elements (nav example_open_world)) ∧
  ∃ w1 w2,
    editorClosed example_getPath 0 example_open_world = Some w1 ∧
    editorOpened example_getPath 0 w1 = Some w2 ∧
    locations w2 !! 0 = Some (Some (EditorLocation 0 (1, 1))).
Proof.
  assert (valid_refs (store example_open_world)
                     (_elements (nav example_open_world))) as Hv.
  { repeat constructor; simpl; lia. }
  assert ("a.js"%string ≠ EmptyString) as Hne by discriminate.
  split; [reflexivity|]. split; [exact Hne|]. split; [exact Hv|].
  destruct (closed_then_opened example_getPath 0 0 "a.js" example_open_world
              eq_refl Hne eq_refl Hv)
    as (w1 & w2 & Hc & Ho & _ & Hmove & _).
  exists w1, w2. split; [exact Hc|]. split; [exact Ho|].
  by apply Hmove.
Defined.

(** * Properties of the remote debug client *)

Lemma new_client_inv (a session : nat) : client_inv (new_client a session).
Proof. repeat split; try constructor; done. Qed.

Lemma client_call_inv (call : ClientCall) (c : RemoteDebugClient) :
  client_inv c → client_inv (client_call call c).
Proof.
  intros Hinv. pose proof Hinv as (Hnd & Hlt & Hcur).
  destruct call; cbn [client_call].
  - unfold CreateDebugServer, client_inv. cbn [snd stopped constructed debugServer].
    split; [done|]. split.
    + eapply Forall_impl; [exact Hlt|]. intros server Hs. simpl in Hs.
      rewrite length_app. simpl. lia.
    + intros server [= <-]. split; [rewrite length_app; simpl; lia|].
      intros Hin. rewrite Forall_forall in Hlt. specialize (Hlt _ Hin). lia.
  - unfold Stop. destruct (debugServer c) as [server|] eqn:Hs; [|exact Hinv].
    destruct (Hcur server eq_refl) as [Hlast Hnot].
    unfold client_inv. cbn [stopped constructed debugServer].
    split; [|split; [|done]].
    + apply NoDup_app. split; [done|]. split; [|apply NoDup_singleton].
      intros x Hx Hx'. apply list_elem_of_singleton in Hx'. by subst.
    + apply Forall_app. split; [done|]. apply Forall_singleton. lia.
Qed.

Lemma client_calls_inv (calls : list ClientCall) :
  ∀ c, client_inv c → client_inv (client_calls calls c).
Proof.
  induction calls as [|call calls IH]; intros c Hc; [done|].
  apply (IH (client_call call c)). by apply client_call_inv.
Qed.

Lemma client_calls_arguments (a session : nat) (calls : list ClientCall) :
  ∀ c, args c = a → debugSession c = session →
       Forall (λ made, made = (session, a)) (constructed c) →
       Forall (λ made, made = (session, a))
              (constructed (client_calls calls c)).
Proof.
  induction calls as [|call calls IH]; intros c Ha Hs Hmade; [done|].
  assert (args (client_call call c) = a ∧
          debugSession (client_call call c) = session ∧
          Forall (λ made, made = (session, a))
                 (constructed (client_call call c))) as (Ha' & Hs' & Hmade').
  { destruct call; cbn [client_call].
    - unfold CreateDebugServer. cbn [snd args debugSession constructed].
      split; [done|]. split; [done|].
      apply Forall_app. split; [done|]. apply Forall_singleton.
      by rewrite Ha, Hs.
    - unfold Stop. by destruct (debugServer c). }
  by apply (IH (client_call call c)).
Qed.

(** X13.  However [CreateDebugServer] and [Stop] are called on a new
    client, no server has its [Stop()] called twice, only servers the client
    constructed are stopped, the server the client holds is the last one
    constructed and has not been stopped, and every server was constructed
    with the client's [debugSession] and [args].  A second [Stop] in a row
    stops nothing, and after [Stop] the client holds no server. *)
Theorem servers_stopped_at_most_once (a session : nat)
    (calls : list ClientCall) :
  let c := client_calls calls (new_client a session) in
  NoDup (stopped c) ∧
  Forall (λ server, server < length (constructed c)) (stopped c) ∧
  (∀ server, debugServer c = Some server →
             S server = length (constructed c) ∧ server ∉ stopped c) ∧
  Forall (λ made, made = (session, a)) (constructed c) ∧
  Stop (Stop c) = Stop c ∧ debugServer (Stop c) = None.
Proof.
  intros c.
  destruct (client_calls_inv calls _ (new_client_inv a session))
    as (Hnd & Hlt & Hcur).
  split; [done|]. split; [done|]. split; [done|]. split.
  { by apply client_calls_arguments. }
  unfold Stop. destruct (debugServer c) eqn:Hs; cbn [debugServer]; [done|].
  by rewrite Hs.
Qed.

Lemma client_calls_app (calls1 calls2 : list ClientCall)
    (c : RemoteDebugClient) :
  client_calls (calls1 ++ calls2) c = client_calls calls2 (client_calls calls1 c).
Proof. unfold client_calls. by rewrite foldl_app. Qed.

Lemma replaced_never_stopped (server : DebugServer)
    (calls : list ClientCall) :
  ∀ c, server < length (constructed c) → server ∉ stopped c →
       debugServer c ≠ Some server →
       server ∉ stopped (client_calls calls c).
Proof.
  induction calls as [|call calls IH]; intros c Hlt Hnot Hcur; [done|].
  apply (IH (client_call call c)); destruct call; cbn [client_call].
  - unfold CreateDebugServer. cbn [snd constructed]. rewrite length_app. lia.
  - unfold Stop. by destruct (debugServer c).
  - done.
  - unfold Stop. destruct (debugServer c) as [current|] eqn:Hs; [|done].
    cbn [stopped]. intros Hin. apply elem_of_app in Hin as [Hin|Hin]; [done|].
    apply list_elem_of_singleton in Hin. congruence.
  - unfold CreateDebugServer. cbn [snd debugServer]. intros [= Heq]. lia.
  - unfold Stop. destruct (debugServer c) eqn:Hs; cbn [debugServer];
      [done|by rewrite Hs].
Qed.

(** X14.  [CreateDebugServer] does not stop the server it replaces: a
    server the client holds when [CreateDebugServer] is called again never
    has its [Stop()] called by this client, whatever is called later. *)
Theorem replaced_server_never_stopped (a session : nat)
    (before after : list ClientCall) (server : DebugServer) :
  debugServer (client_calls before (new_client a session)) = Some server →
  server ∉
    stopped (client_calls (before ++ CallCreateDebugServer :: after)
                          (new_client a session)).
Proof.
  intros Hheld. rewrite client_calls_app.
  destruct (client_calls_inv before _ (new_client_inv a session))
    as (_ & _ & Hcur).
  destruct (Hcur server Hheld) as [Hlast Hnot].
  set (c := client_calls before (new_client a session)) in *.
  change (client_calls (CallCreateDebugServer :: after) c)
    with (client_calls after (snd (CreateDebugServer c))).
  apply replaced_never_stopped.
  - unfold CreateDebugServer. cbn [snd constructed]. rewrite length_app. lia.
  - done.
  - unfold CreateDebugServer. cbn [snd debugServer]. intros [= Heq]. lia.
Qed.

Lemma replaced_server_never_stopped_witness :
  debugServer (client_calls [CallCreateDebugServer] (new_client 7 9)) = Some 0 ∧
  0 ∉ stopped (client_calls
                 ([CallCreateDebugServer] ++
                  CallCreateDebugServer :: [CallStop; CallStop])
                 (new_client 7 9)).
Proof.
  split; [reflexivity|].
  exact (replaced_server_never_stopped 7 9 [CallCreateDebugServer]
           [CallStop; CallStop] 0 eq_refl).
Defined.
